(** * Icon registry, codicons and the disassembly view

    A shallow embedding of
    - [src/vs/base/browser/ui/codiconLabel/codicons.ts] (class [Codicon]),
    - [src/vs/platform/theme/common/iconRegistry.ts] (class [IconRegistry]),
    - the [DisassemblyView] editor pane that loads disassembled
      instructions page by page while the user scrolls,
    followed by the properties of these programs.

    JavaScript objects used as dictionaries are finite maps ([gmap]) with
    string keys, arrays are lists, numbers that hold scroll positions, row
    indices and offsets are integers ([Z]).  Asynchronous calls are modelled
    by an explicit list of outstanding requests and an event that settles
    one of them. *)

From Stdlib Require Import QArith.QArith_base.
From stdpp Require Import base numbers list list_numbers sorting strings gmap pretty.

Local Open Scope Z_scope.

(** ** JavaScript helpers *)

(** [Array.prototype.splice(start, deleteCount, ...items)] for a start index
    that is not negative: the elements before [start] are kept, [deleteCount]
    elements are dropped, [items] take their place.  A start index beyond the
    end of the array is clamped to the end ([take] and [drop] clamp). *)
Definition splice {A : Type} (start deleteCount : nat) (items l : list A) : list A :=
  take start l ++ items ++ drop (start + deleteCount) l.

(** [Array.prototype.indexOf]: the first index that holds [x], or [-1]. *)
Fixpoint indexOf (x : string) (l : list string) : Z :=
  match l with
  | [] => -1
  | y :: l' =>
      if decide (y = x) then 0
      else let i := indexOf x l' in
           if decide (i = -1) then -1 else i + 1
  end.

(** A plain object that is used as a dictionary is the finite map of its
    own properties, together with the value that an assignment to the key
    ["__proto__"] made its prototype, if there was one.  [obj[k] = v], for
    a value [v] that is an object: the key ["__proto__"] reaches the
    setter that [Object.prototype] provides, which replaces the prototype
    and creates no property; any other key becomes (or overwrites) an own
    property.  [delete obj[k]] removes an own property; the key
    ["__proto__"] is never one. *)
Definition assignOwn {V : Type} (k : string) (v : V) (own : gmap string V)
    : gmap string V :=
  if decide (k = "__proto__") then own else <[k := v]> own.

Definition assignPrototype {V : Type} (k : string) (v : V) (prototype : option V)
    : option V :=
  if decide (k = "__proto__") then Some v else prototype.

(** Truthiness of an optional string: [undefined] and the empty string are
    falsy. *)
Definition truthy (s : option string) : bool :=
  match s with
  | None => false
  | Some s => negb (String.eqb s "")
  end.

(** ** codicons.ts *)

Module Codicon.

Record Codicon : Type := new { id : string }.

Definition className (this : Codicon) : string :=
  "codicon codicon-" +:+ id this.

Definition cssSelector (this : Codicon) : string :=
  ".codicon.codicon-" +:+ id this.

Definition breadcrumbSeparator : Codicon := new "breadcrumb-separator".
Definition menuSelection : Codicon := new "menu-selection".
Definition menuSubmenu : Codicon := new "menu-submenu".
Definition listClose : Codicon := new "list-close".
Definition toolBarMore : Codicon := new "toolbar-more".
Definition menuBarMore : Codicon := new "menubar-more".
Definition scrollbarButtonLeft : Codicon := new "scrollbar-button-left".
Definition scrollbarButtonRight : Codicon := new "scrollbar-button-right".
Definition scrollbarButtonUp : Codicon := new "scrollbar-button-up".
Definition scrollbarButtonDown : Codicon := new "scrollbar-button-down".

End Codicon.

(** ** iconRegistry.ts *)

Module IconRegistry.

Record ThemeIcon : Type := { themeIconId : string }.

Record IconDefinition : Type := { fontId : option string; character : string }.

(** [type IconDefaults = ThemeIcon | IconDefinition] *)
Inductive IconDefaults : Type :=
| OfThemeIcon (t : ThemeIcon)
| OfDefinition (d : IconDefinition).

Record IconContribution : Type := {
  id : string;
  description : string;
  deprecationMessage : option string;
  defaults : IconDefaults
}.

(** The property schema that [registerIcon] stores per icon id. *)
Record PropertySchema : Type := {
  ref : string;
  schemaDeprecationMessage : option string;
  markdownDescription : string
}.

(** The mutable fields of the class.  [iconsById] holds the own properties
    of the object of that name and [iconsByIdPrototype] its prototype, when
    an assignment has set one.  [iconSchema] keeps only its [properties]
    (the rest of the schema is constant), again as own properties and
    prototype, and [iconReferenceSchema] its two parallel arrays.
    [changes] counts the calls of [_onDidChangeSchema.fire()]. *)
Record IconRegistry : Type := {
  iconsById : gmap string IconContribution;
  iconsByIdPrototype : option IconContribution;
  iconSchemaProperties : gmap string PropertySchema;
  iconSchemaPropertiesPrototype : option PropertySchema;
  enum : list string;
  enumDescriptions : list string;
  changes : nat
}.

(** [new IconRegistry()] *)
Definition empty : IconRegistry :=
  {| iconsById := ∅; iconsByIdPrototype := None;
     iconSchemaProperties := ∅; iconSchemaPropertiesPrototype := None;
     enum := []; enumDescriptions := []; changes := 0 |}.

(** [localize('icon.defaultDescription', 'Icon with identifier {0}', id)]:
    [localize] of [vs/nls] is not part of the sources at hand; this is the
    message of the call itself, untranslated, with [{0}] replaced. *)
Definition defaultDescription (id : string) : string :=
  "Icon with identifier " +:+ id.

(** The description that [registerIcon] stores for the argument
    [description]. *)
Definition describedAs (id : string) (description : option string) : string :=
  if truthy description then default "" description
  else defaultDescription id.

Definition registerIcon (id : string) (defaults : IconDefaults)
    (description deprecationMessage : option string)
    (this : IconRegistry) : IconRegistry * ThemeIcon :=
  let description :=
    if truthy description then default "" description
    else defaultDescription id in
  let iconContribution :=
    {| id := id; description := description;
       deprecationMessage := deprecationMessage; defaults := defaults |} in
  let propertySchema :=
    {| ref := "#/definitions/icons";
       schemaDeprecationMessage :=
         if truthy deprecationMessage then deprecationMessage else None;
       markdownDescription := description +:+ ": $(" +:+ id +:+ ")" |} in
  ({| iconsById := assignOwn id iconContribution (iconsById this);
      iconsByIdPrototype :=
        assignPrototype id iconContribution (iconsByIdPrototype this);
      iconSchemaProperties :=
        assignOwn id propertySchema (iconSchemaProperties this);
      iconSchemaPropertiesPrototype :=
        assignPrototype id propertySchema (iconSchemaPropertiesPrototype this);
      enum := enum this ++ [id];
      enumDescriptions := enumDescriptions this ++ [description];
      changes := S (changes this) |},
   {| themeIconId := id |}).

Definition deregisterIcon (id : string) (this : IconRegistry) : IconRegistry :=
  let index := indexOf id (enum this) in
  {| iconsById := delete id (iconsById this);
     iconsByIdPrototype := iconsByIdPrototype this;
     iconSchemaProperties := delete id (iconSchemaProperties this);
     iconSchemaPropertiesPrototype := iconSchemaPropertiesPrototype this;
     enum :=
       if decide (index ≠ -1)
       then splice (Z.to_nat index) 1 [] (enum this) else enum this;
     enumDescriptions :=
       if decide (index ≠ -1)
       then splice (Z.to_nat index) 1 [] (enumDescriptions this)
       else enumDescriptions this;
     changes := S (changes this) |}.

(** [Object.keys(this.iconsById).map(id => this.iconsById[id])]: the own
    keys, and for each the own property of that key.  The keys come in the
    order of [map_to_list]; the order in which JavaScript enumerates them
    is not modelled, so [getIcons] is meaningful up to a permutation. *)
Definition getIcons (this : IconRegistry) : list IconContribution :=
  omap (λ id, iconsById this !! id) (map_to_list (iconsById this)).*1.

(** [getIconSchema()]: the own properties of [iconSchema.properties]. *)
Definition getIconSchema (this : IconRegistry) : gmap string PropertySchema :=
  iconSchemaProperties this.

(** [getIconReferenceSchema()]: [{ type: 'string', enum, enumDescriptions }] *)
Definition getIconReferenceSchema (this : IconRegistry) : list string * list string :=
  (enum this, enumDescriptions this).

(** A call of the public interface, and the registry a sequence of calls
    leaves behind. *)
Inductive Call : Type :=
| RegisterIcon (id : string) (defaults : IconDefaults)
    (description deprecationMessage : option string)
| DeregisterIcon (id : string).

Definition call (this : IconRegistry) (c : Call) : IconRegistry :=
  match c with
  | RegisterIcon id d desc dep => (registerIcon id d desc dep this).1
  | DeregisterIcon id => deregisterIcon id this
  end.

Definition calls (cs : list Call) : IconRegistry := foldl call empty cs.

(** What a registry built through its interface satisfies: every
    contribution is stored under its own id, and the two arrays of the
    reference schema have the same length. *)
Definition consistent (r : IconRegistry) : Prop :=
  (∀ k c, iconsById r !! k = Some c → id c = k) ∧
  length (enumDescriptions r) = length (enum r).

(** The description that [registerIcon] stores, written out: the argument
    when there is one that is not empty, the default text otherwise. *)
Definition storedDescription (id : string) (description : option string) : string :=
  match description with
  | Some (String c s) => String c s
  | _ => "Icon with identifier " +:+ id
  end.

End IconRegistry.

(** ** The disassembly view *)

Module DebugProtocol.

(** The fields of [DebugProtocol.DisassembledInstruction] that the view
    reads; [instructionBytes] is optional in the protocol. *)
Record DisassembledInstruction : Type := {
  address : string;
  instructionBytes : option string;
  instruction : string
}.

End DebugProtocol.

Module DisassemblyView.

Record IDisassembledInstructionEntry : Type := {
  allowBreakpoint : bool;
  isBreakpointSet : bool;
  instruction : DebugProtocol.DisassembledInstruction
}.

Definition NUM_INSTRUCTIONS_TO_LOAD : Z := 50.

(** The fields of the table's scroll event that the handler reads.  Scroll
    positions are whole pixels. *)
Record ScrollEvent : Type := {
  oldScrollTop : Z;
  scrollTop : Z;
  height : Z;
  scrollHeight : Z
}.

(** A call [reveal(index, relativeTop)] of the table. *)
Record Reveal : Type := { index : Z; relativeTop : Q }.

(** A call of [loadDisassembledInstructions] that is suspended at its
    [await]: the arguments it passed to [getDisassemble], and the
    [reveal] its caller chained with [.then], if any. *)
Record Request : Type := {
  offset : Z;
  instructionCount : Z;
  continuation : option Reveal
}.

(** How the promise of [getDisassemble] settles: it rejects, or it
    resolves with the instructions or with [undefined]. *)
Inductive Settlement : Type :=
| Rejected
| Resolved (resultEntries : option (list DebugProtocol.DisassembledInstruction)).

(** The fields of the view that the loader touches, together with what the
    model records of its environment: [lineHeight] is
    [this._fontInfo.lineHeight]; [_disassembledInstructions] holds the rows
    of the table ([None] is [null]); [outstanding] lists the suspended
    calls, oldest first; [reveals] logs the calls of [reveal], oldest
    first; [rejections] counts the calls of [loadDisassembledInstructions]
    whose promise rejected. *)
Record DisassemblyView : Type := {
  lineHeight : Z;
  _disassembledInstructions : option (list IDisassembledInstructionEntry);
  _lastOffset : Z;
  outstanding : list Request;
  reveals : list Reveal;
  rejections : nat
}.

Definition constructor (lineHeight : Z) : DisassemblyView :=
  {| lineHeight := lineHeight; _disassembledInstructions := None;
     _lastOffset := 0; outstanding := []; reveals := []; rejections := 0 |}.

(** [loadDisassembledInstructions] up to its [await]: the request goes
    out. *)
Definition loadDisassembledInstructions (offset instructionCount : Z)
    (continuation : option Reveal) (this : DisassemblyView) : DisassemblyView :=
  {| lineHeight := lineHeight this;
     _disassembledInstructions := _disassembledInstructions this;
     _lastOffset := _lastOffset this;
     outstanding := outstanding this ++
       [{| offset := offset; instructionCount := instructionCount;
           continuation := continuation |}];
     reveals := reveals this;
     rejections := rejections this |}.

Definition newEntries (resultEntries : list DebugProtocol.DisassembledInstruction)
    : list IDisassembledInstructionEntry :=
  (λ i, {| allowBreakpoint := true; isBreakpointSet := false; instruction := i |})
    <$> resultEntries.

(** Modelled from the spec: [WorkbenchTable.splice] is not part of the
    sources at hand; inserting rows is the array insertion [splice] above,
    which prepends at index 0 and appends at the index of the length. *)
Definition tableSplice (start : Z) (deleteCount : nat)
    (elements rows : list IDisassembledInstructionEntry)
    : list IDisassembledInstructionEntry :=
  splice (Z.to_nat start) deleteCount elements rows.

(** [loadDisassembledInstructions] after its [await], on a result of
    [getDisassemble]. *)
Definition merge (offset : Z)
    (resultEntries : option (list DebugProtocol.DisassembledInstruction))
    (table : option (list IDisassembledInstructionEntry))
    : option (list IDisassembledInstructionEntry) :=
  match resultEntries, table with
  | Some resultEntries, Some rows =>
      (* request is either at the end or start *)
      if bool_decide (0 ≤ offset)
      then Some (tableSplice offset 0 (newEntries resultEntries) rows)
      else Some (tableSplice 0 0 (newEntries resultEntries) rows)
  | _, _ => table
  end.

(** The [.then] callback: [this._disassembledInstructions?.reveal(..)]. *)
Definition runContinuation (continuation : option Reveal)
    (table : option (list IDisassembledInstructionEntry)) : list Reveal :=
  match continuation, table with
  | Some r, Some _ => [r]
  | _, _ => []
  end.

(** The [k]-th outstanding call of [getDisassemble] settles: the suspended
    [loadDisassembledInstructions] resumes and, when it returns, the
    chained callback runs.  A rejection propagates through the [await]
    and the [.then]: nothing else runs. *)
Definition settle (k : nat) (s : Settlement) (this : DisassemblyView)
    : DisassemblyView :=
  match outstanding this !! k with
  | None => this
  | Some r =>
      match s with
      | Rejected =>
          {| lineHeight := lineHeight this;
             _disassembledInstructions := _disassembledInstructions this;
             _lastOffset := _lastOffset this;
             outstanding := delete k (outstanding this);
             reveals := reveals this;
             rejections := S (rejections this) |}
      | Resolved resultEntries =>
          let table := merge (offset r) resultEntries (_disassembledInstructions this) in
          {| lineHeight := lineHeight this;
             _disassembledInstructions := table;
             _lastOffset := _lastOffset this;
             outstanding := delete k (outstanding this);
             reveals := reveals this ++ runContinuation (continuation r) table;
             rejections := rejections this |}
      end
  end.

Definition setLastOffset (o : Z) (this : DisassemblyView) : DisassemblyView :=
  {| lineHeight := lineHeight this;
     _disassembledInstructions := _disassembledInstructions this;
     _lastOffset := o;
     outstanding := outstanding this;
     reveals := reveals this;
     rejections := rejections this |}.

(** The scroll handler that [createEditor] registers.  [Math.floor] of the
    quotient is the integer division (for a line height that is not 0).
    The handler exists only once the table does; on a view without a table
    the property access of the forward branch would throw, and the model
    leaves the view as it is. *)
Definition onDidScroll (e : ScrollEvent) (this : DisassemblyView) : DisassemblyView :=
  if bool_decide (oldScrollTop e > scrollTop e) && bool_decide (scrollTop e < height e)
  then
    let topElement := scrollTop e `div` lineHeight this + NUM_INSTRUCTIONS_TO_LOAD in
    let this := setLastOffset (_lastOffset this - NUM_INSTRUCTIONS_TO_LOAD) this in
    loadDisassembledInstructions (_lastOffset this) NUM_INSTRUCTIONS_TO_LOAD
      (Some {| index := topElement; relativeTop := 0%Q |}) this
  else if bool_decide (oldScrollTop e < scrollTop e)
       && bool_decide (scrollTop e + height e > scrollHeight e - height e)
  then
    match _disassembledInstructions this with
    | Some rows =>
        loadDisassembledInstructions (Z.of_nat (length rows))
          NUM_INSTRUCTIONS_TO_LOAD None this
    | None => this
    end
  else this.

(** [createEditor]: the table is created empty, the offset is set and the
    first page is requested. *)
Definition createEditor (this : DisassemblyView) : DisassemblyView :=
  let this :=
    {| lineHeight := lineHeight this;
       _disassembledInstructions := Some [];
       _lastOffset := - NUM_INSTRUCTIONS_TO_LOAD;
       outstanding := outstanding this;
       reveals := reveals this;
       rejections := rejections this |} in
  loadDisassembledInstructions (_lastOffset this) NUM_INSTRUCTIONS_TO_LOAD
    (Some {| index := NUM_INSTRUCTIONS_TO_LOAD; relativeTop := (1 # 2)%Q |}) this.

(** *** Runs of the view

    The view is driven by scroll events and by the settling of outstanding
    requests, in any interleaving. *)
Inductive Event : Type :=
| DidScroll (e : ScrollEvent)
| Settles (k : nat) (s : Settlement).

Definition step (this : DisassemblyView) (ev : Event) : DisassemblyView :=
  match ev with
  | DidScroll e => onDidScroll e this
  | Settles k s => settle k s this
  end.

Definition run (evs : list Event) (this : DisassemblyView) : DisassemblyView :=
  foldl step this evs.

(** *** The source of instructions

    [getDisassemble(memoryReference, offset, 0, instructionCount)] of the
    debug service, as a function of the two arguments that vary. *)
Definition Source : Type := Z → Z → Settlement.

(** Every outstanding request settles with the answer of the source,
    oldest first. *)
Fixpoint settleAll (src : Source) (n : nat) (this : DisassemblyView) : DisassemblyView :=
  match n with
  | O => this
  | S n =>
      match outstanding this with
      | [] => this
      | r :: _ =>
          settleAll src n (settle 0 (src (offset r) (instructionCount r)) this)
      end
  end.

Definition quiesce (src : Source) (this : DisassemblyView) : DisassemblyView :=
  settleAll src (length (outstanding this)) this.

(** A scroll event whose fetch, if any, settles before the next event. *)
Definition fetchAndMerge (src : Source) (this : DisassemblyView) (e : ScrollEvent)
    : DisassemblyView :=
  quiesce src (onDidScroll e this).

Definition initialize (src : Source) (lineHeight : Z) : DisassemblyView :=
  quiesce src (createEditor (constructor lineHeight)).

Definition scrolls (src : Source) (es : list ScrollEvent) (this : DisassemblyView)
    : DisassemblyView :=
  foldl (fetchAndMerge src) this es.

(** A source that answers every request with the full page of the
    instructions at the logical positions [offset], [offset + 1], ...,
    [offset + instructionCount - 1]. *)
Definition pageSource (instructionAt : Z → DebugProtocol.DisassembledInstruction)
    : Source :=
  λ offset instructionCount,
    Resolved (Some (instructionAt <$> seqZ offset instructionCount)).

(** The instruction whose address is the decimal numeral of its position. *)
Definition decimalInstruction (p : Z) : DebugProtocol.DisassembledInstruction :=
  {| DebugProtocol.address := pretty p;
     DebugProtocol.instructionBytes := None;
     DebugProtocol.instruction := "" |}.

(** The identity keys of the rows ([identityProvider.getId]). *)
Definition identityKeys (rows : list IDisassembledInstructionEntry) : list string :=
  (λ e, DebugProtocol.address (instruction e)) <$> rows.

(** The window covers the logical span [[Offset, Offset + len)] of the
    source without a gap: its rows are the instructions at these
    positions, in this order. *)
Definition spansWindow (instructionAt : Z → DebugProtocol.DisassembledInstruction)
    (this : DisassemblyView) : Prop :=
  ∃ rows, _disassembledInstructions this = Some rows ∧
    instruction <$> rows =
    instructionAt <$> seqZ (_lastOffset this) (Z.of_nat (length rows)).

(** The view after [createEditor] and the events [evs]. *)
Definition editorAfter (lh : Z) (evs : list Event) : DisassemblyView :=
  run evs (createEditor (constructor lh)).


(** Two scroll events of a viewport of height 300 over rows of height 18:
    up towards the top, and down towards the bottom of 900 pixels of
    content. *)
Definition scrollUp : ScrollEvent :=
  {| oldScrollTop := 400; scrollTop := 200; height := 300; scrollHeight := 900 |}.

Definition scrollUpAgain : ScrollEvent :=
  {| oldScrollTop := 200; scrollTop := 100; height := 300; scrollHeight := 900 |}.

Definition scrollDown : ScrollEvent :=
  {| oldScrollTop := 400; scrollTop := 500; height := 300; scrollHeight := 900 |}.

(** The two conditions of the scroll handler, in the words of the
    specification. *)
Definition backwardCondition (e : ScrollEvent) : Prop :=
  scrollTop e < oldScrollTop e ∧ scrollTop e < height e.

Definition forwardCondition (e : ScrollEvent) : Prop :=
  oldScrollTop e < scrollTop e ∧
  scrollTop e + height e > scrollHeight e - height e.

(** What holds of the view from [createEditor] on: the table exists, the
    offset is at most [-NUM_INSTRUCTIONS_TO_LOAD], the line height is the
    one the view was constructed with. *)
Definition created (lh : Z) (this : DisassemblyView) : Prop :=
  lineHeight this = lh ∧
  is_Some (_disassembledInstructions this) ∧
  _lastOffset this ≤ - NUM_INSTRUCTIONS_TO_LOAD.

(** The rows that hold the instructions at the logical positions [ps]. *)
Definition rowsAt (instructionAt : Z → DebugProtocol.DisassembledInstruction)
    (ps : list Z) : list IDisassembledInstructionEntry :=
  newEntries (instructionAt <$> ps).

(** The shape of the window when every fetch has settled with a full page:
    the pages fetched backward cover [[Offset, 0)] without a gap, and are
    followed by the rows at the positions [fs] that the forward fetches
    appended. *)
Definition loaded (instructionAt : Z → DebugProtocol.DisassembledInstruction)
    (fs : list Z) (this : DisassemblyView) : Prop :=
  outstanding this = [] ∧
  _lastOffset this ≤ - NUM_INSTRUCTIONS_TO_LOAD ∧
  _disassembledInstructions this =
    Some (rowsAt instructionAt
            (seqZ (_lastOffset this) (- _lastOffset this) ++ fs)) ∧
  Forall (λ p, NUM_INSTRUCTIONS_TO_LOAD ≤ p
               < - _lastOffset this + Z.of_nat (length fs)) fs ∧
  StronglySorted Z.lt fs.

End DisassemblyView.

(** ** The rest of the registry file *)

Module SchemaNotifier.

(** The listener that the module registers on [onDidChangeSchema]:
    [if (!delayer.isScheduled()) { delayer.schedule(); }].  The class
    [RunOnceScheduler] of [vs/base/common/async] is not part of the sources
    at hand: the delayer is a state with the two methods the listener calls.
    The second component counts the calls of [schedule]. *)
Section delayer.
Variable Scheduler : Type.
Variable isScheduled : Scheduler → bool.
Variable schedule : Scheduler → Scheduler.

Definition listener (st : Scheduler * nat) : Scheduler * nat :=
  if negb (isScheduled st.1) then (schedule st.1, S st.2) else st.

(** [_onDidChangeSchema.fire()] calls the listener at once; a registry that
    fired [n] times has called it [n] times. *)
Definition fired (n : nat) (st : Scheduler * nat) : Scheduler * nat :=
  Nat.iter n listener st.

End delayer.

(** A delayer that is a flag: scheduling raises it. *)
Definition flagIsScheduled (s : bool) : bool := s.
Definition flagSchedule (s : bool) : bool := true.

End SchemaNotifier.

(** ** The renderers and the editor input of the disassembly view *)

Module InstructionRenderer.

Definition TEMPLATE_ID : string := "instruction".

(** The tab character of the template literal (code 9). *)
Definition tabChar : Ascii.ascii :=
  Ascii.Ascii true false false true false false false false.

Definition tab : string := String tabChar "".

(** How a template literal prints an optional string: a missing value is
    the text [undefined]. *)
Definition interpolate (s : option string) : string :=
  default "undefined" s.

(** [renderElement]: the text that is assigned to
    [templateData.instruction.innerText]. *)
Definition renderElement (element : DisassemblyView.IDisassembledInstructionEntry)
    : string :=
  let instruction := DisassemblyView.instruction element in
  DebugProtocol.address instruction +:+ tab +:+
  interpolate (DebugProtocol.instructionBytes instruction) +:+ tab +:+
  DebugProtocol.instruction instruction.

(** The string holds no tab. *)
Fixpoint tabFree (s : string) : Prop :=
  match s with
  | EmptyString => True
  | String c s => c ≠ tabChar ∧ tabFree s
  end.

End InstructionRenderer.

Module DisassemblyViewInput.

Definition ID : string := "debug.disassemblyView.input".

(** The inputs that were created, named by the order of their creation: for
    each one whether it is disposed ([isDisposed()] of [EditorInput], which
    is not part of the sources at hand; a new input is taken not to be
    disposed), and the static field [_instance]. *)
Record Inputs : Type := {
  disposed : list bool;
  _instance : option nat
}.

Definition noInputs : Inputs := {| disposed := []; _instance := None |}.

Definition isDisposed (i : nat) (h : Inputs) : bool :=
  default true (disposed h !! i).

(** [new DisassemblyViewInput()], stored in [_instance]. *)
Definition create (h : Inputs) : Inputs * nat :=
  ({| disposed := disposed h ++ [false];
      _instance := Some (length (disposed h)) |},
   length (disposed h)).

(** The static getter [instance]. *)
Definition instance (h : Inputs) : Inputs * nat :=
  match _instance h with
  | None => create h
  | Some i => if isDisposed i h then create h else (h, i)
  end.

(** The input [i] is disposed by its owner. *)
Definition dispose (i : nat) (h : Inputs) : Inputs :=
  {| disposed := <[i := true]> (disposed h); _instance := _instance h |}.

(** What the environment does to the inputs, and the getter. *)
Inductive Action : Type :=
| GetInstance
| Dispose (i : nat).

Definition act (h : Inputs) (a : Action) : Inputs :=
  match a with
  | GetInstance => (instance h).1
  | Dispose i => dispose i h
  end.

End DisassemblyViewInput.

Module Interleaving.
Import DisassemblyView.

(** The test of the backward branch of the scroll handler, on an event of
    the view. *)
Definition qualifiesBackward (ev : Event) : bool :=
  match ev with
  | DidScroll e =>
      bool_decide (oldScrollTop e > scrollTop e) && bool_decide (scrollTop e < height e)
  | Settles _ _ => false
  end.

(** The number of events that take the backward branch. *)
Definition backwardFetches (evs : list Event) : nat :=
  length (filter (λ ev, qualifiesBackward ev = true) evs).

(** A source that answers a request with the instructions at the logical
    positions from [offset] on, in their order: all [instructionCount] of
    them, or only the first [served offset instructionCount] when that is
    less. *)
Definition prefixSource (instructionAt : Z → DebugProtocol.DisassembledInstruction)
    (served : Z → Z → Z) : Source :=
  λ offset instructionCount,
    Resolved (Some (instructionAt <$>
      seqZ offset (served offset instructionCount `min` instructionCount))).

(** The shape of the window when every fetch has settled with a page that
    may be short: the rows at the positions [bs], which the backward
    fetches prepended, followed by the rows at the positions [fs], which
    the forward fetches appended. *)
Definition loadedFrom (instructionAt : Z → DebugProtocol.DisassembledInstruction)
    (bs fs : list Z) (this : DisassemblyView) : Prop :=
  outstanding this = [] ∧
  _lastOffset this ≤ - NUM_INSTRUCTIONS_TO_LOAD ∧
  _disassembledInstructions this = Some (rowsAt instructionAt (bs ++ fs)) ∧
  StronglySorted Z.lt bs ∧
  Forall (λ p, _lastOffset this ≤ p < 0) bs ∧
  StronglySorted Z.lt fs ∧
  Forall (λ p, 0 ≤ p < Z.of_nat (length (bs ++ fs))) fs.

End Interleaving.

(** * Properties *)

(** ** The helpers on concrete arrays *)

Example splice_insert : splice 1 0 [7; 8] [1; 2; 3] = [1; 7; 8; 2; 3].
Proof. reflexivity. Qed.

Example splice_beyond_end : splice 5 0 [7] [1; 2; 3] = [1; 2; 3; 7].
Proof. reflexivity. Qed.

Example splice_delete : splice 1 1 [] ["a"; "b"; "c"] = ["a"; "c"].
Proof. reflexivity. Qed.

Example indexOf_present : indexOf "b" ["a"; "b"; "c"; "b"] = 1.
Proof. reflexivity. Qed.

Example indexOf_absent : indexOf "z" ["a"; "b"] = -1.
Proof. reflexivity. Qed.

(** ** Codicons *)

(** C10: for every [Codicon] constructed with identifier [s], [className] is
    ['codicon codicon-'] followed by [s] and [cssSelector] is
    ['.codicon.codicon-'] followed by [s]; the accessors are functions of
    the object, which still carries [s] afterwards. *)
Theorem codicon_accessors (s : string) :
  Codicon.className (Codicon.new s) = "codicon codicon-" +:+ s ∧
  Codicon.cssSelector (Codicon.new s) = ".codicon.codicon-" +:+ s ∧
  Codicon.id (Codicon.new s) = s.
Proof. done. Qed.

(** ** The icon registry *)

Section icon_registry.
Import IconRegistry.

(** The registry after [registerIcon('add', ..)], [registerIcon('plus', ..)]
    and [deregisterIcon('add')]. *)
Example register_deregister :
  getIconReferenceSchema
    (calls [RegisterIcon "add" (OfDefinition {| fontId := None; character := "A" |})
              None None;
            RegisterIcon "plus" (OfDefinition {| fontId := None; character := "A" |})
              (Some "Plus sign") None;
            DeregisterIcon "add"])
  = (["plus"], ["Plus sign"]) ∧
  id <$> getIcons
    (calls [RegisterIcon "add" (OfDefinition {| fontId := None; character := "A" |})
              None None;
            RegisterIcon "plus" (OfDefinition {| fontId := None; character := "A" |})
              (Some "Plus sign") None;
            DeregisterIcon "add"])
  = ["plus"].
Proof. split; by vm_compute. Qed.

Lemma indexOf_spec x l :
  (indexOf x l = -1 ∧ x ∉ l) ∨
  (∃ l1 l2, l = l1 ++ x :: l2 ∧ (x ∉ l1) ∧ indexOf x l = Z.of_nat (length l1)).
Proof.
  induction l as [|y l IH]; simpl.
  - left. split; [done | apply not_elem_of_nil].
  - destruct (decide (y = x)) as [->|Hne].
    + right. exists [], l. split_and!; [done | apply not_elem_of_nil | done].
    + destruct IH as [[-> Hnot]|(l1 & l2 & -> & Hnot & ->)].
      * left. rewrite decide_True by done. split; [done|].
        rewrite not_elem_of_cons. auto.
      * right. rewrite decide_False by lia.
        exists (y :: l1), l2. split_and!.
        -- done.
        -- rewrite not_elem_of_cons. auto.
        -- simpl length. lia.
Qed.

Lemma splice_remove {A} (l1 l2 : list A) x :
  splice (length l1) 1 [] (l1 ++ x :: l2) = l1 ++ l2.
Proof.
  unfold splice. simpl. rewrite take_app_length. f_equal.
  rewrite drop_app_ge by lia.
  by replace (length l1 + 1 - length l1)%nat with 1%nat by lia.
Qed.

Lemma splice_length_remove {A} (l : list A) (i : nat) :
  (i < length l)%nat → length (splice i 1 [] l) = pred (length l).
Proof.
  intros Hi. unfold splice. simpl. rewrite length_app, length_take, length_drop. lia.
Qed.

Lemma lookup_assignOwn {V} (k : string) (v : V) (m : gmap string V) (j : string) :
  assignOwn k v m !! j =
  if decide (k = "__proto__") then m !! j
  else if decide (k = j) then Some v else m !! j.
Proof. unfold assignOwn. case_decide; [done|]. apply lookup_insert. Qed.

Lemma assignOwn_insert {V} (k : string) (v : V) (m : gmap string V) :
  k ≠ "__proto__" → assignOwn k v m = <[k := v]> m.
Proof. intros Hk. unfold assignOwn. by rewrite decide_False. Qed.

Lemma describedAs_stored i desc : describedAs i desc = storedDescription i desc.
Proof.
  unfold describedAs, storedDescription, truthy. by destruct desc as [[|c s]|].
Qed.

Lemma consistent_empty : consistent empty.
Proof. split; [|done]. intros k c. simpl. by rewrite lookup_empty. Qed.

Lemma consistent_call r c : consistent r → consistent (call r c).
Proof.
  intros [Hid Hlen]. destruct c as [i d desc dep|i]; simpl.
  - split.
    + intros k c. simpl. rewrite lookup_assignOwn.
      case_decide as Hp; [apply Hid|]. case_decide as Hk.
      * intros [= <-]. done.
      * apply Hid.
    + simpl. rewrite !length_app, Hlen. done.
  - split.
    + intros k c. simpl. rewrite lookup_delete. case_decide; [done | apply Hid].
    + simpl. destruct (indexOf_spec i (enum r)) as [[-> _]|(l1 & l2 & Hl & _ & ->)].
      * rewrite !decide_False by lia. done.
      * rewrite !decide_True by lia. rewrite Nat2Z.id.
        assert (length l1 < length (enum r))%nat as Hlt.
        { rewrite Hl, length_app. simpl. lia. }
        rewrite !splice_length_remove; lia.
Qed.

Lemma consistent_calls cs : consistent (calls cs).
Proof.
  unfold calls. generalize consistent_empty. generalize empty.
  induction cs as [|c cs IH]; intros r Hr; simpl; [done|].
  apply IH. by apply consistent_call.
Qed.

Lemma getIcons_values r : getIcons r = (map_to_list (iconsById r)).*2.
Proof.
  unfold getIcons.
  assert (∀ l : list (string * IconContribution),
    (∀ k c, (k, c) ∈ l → iconsById r !! k = Some c) →
    omap (λ i, iconsById r !! i) l.*1 = l.*2) as Hgen.
  { induction l as [|[k c] l IH]; intros Hl; simpl; [done|].
    rewrite (Hl k c) by left. f_equal. apply IH.
    intros k' c' Hin. apply Hl. by right. }
  apply Hgen. intros k c. by rewrite elem_of_map_to_list.
Qed.

Lemma filter_none {A} (P : A → Prop) `{!∀ x, Decision (P x)} (l : list A) :
  Forall (λ x, ¬ P x) l → filter P l = [].
Proof.
  induction 1 as [|x l Hx _ IH]; [done|].
  by rewrite filter_cons_False.
Qed.

(** The contributions of [getIcons] that carry the id [i], when [c] has
    just been stored under [i]. *)
Lemma getIcons_insert r r' i c :
  (∀ k c', iconsById r !! k = Some c' → id c' = k) →
  iconsById r' = <[i := c]> (iconsById r) →
  id c = i →
  filter (λ c', id c' = i) (getIcons r') = [c].
Proof.
  intros Hid Hmap Hc. rewrite getIcons_values, Hmap.
  apply Permutation_singleton_r.
  rewrite <- insert_delete_eq.
  rewrite map_to_list_insert by apply lookup_delete_eq.
  rewrite fmap_cons. simpl. rewrite filter_cons_True by done.
  rewrite filter_none; [done|].
  apply Forall_forall. intros c' Hin.
  apply list_elem_of_fmap in Hin as ([k c''] & -> & Hin). simpl.
  apply elem_of_map_to_list in Hin.
  rewrite lookup_delete in Hin. case_decide as Hk; [done|].
  apply Hid in Hin. congruence.
Qed.

Lemma indexOf_first x l1 l2 :
  x ∉ l1 → indexOf x (l1 ++ x :: l2) = Z.of_nat (length l1).
Proof.
  induction l1 as [|y l1 IH]; intros Hnot; simpl.
  - by rewrite decide_True.
  - apply not_elem_of_cons in Hnot as [Hne Hnot].
    rewrite decide_False by done. rewrite IH by done.
    rewrite decide_False by lia. lia.
Qed.

(** [deregisterIcon] removes the first entry of [i] from both arrays. *)
Lemma deregisterIcon_first r i l1 l2 ds1 d ds2 :
  enum r = l1 ++ i :: l2 → i ∉ l1 →
  enumDescriptions r = ds1 ++ d :: ds2 → length ds1 = length l1 →
  getIconReferenceSchema (deregisterIcon i r) = (l1 ++ l2, ds1 ++ ds2).
Proof.
  intros Henum Hnot Hdesc Hlen.
  unfold getIconReferenceSchema, deregisterIcon. cbv zeta.
  cbn [enum enumDescriptions]. rewrite Henum, Hdesc.
  rewrite indexOf_first by done.
  rewrite !decide_True by lia. rewrite Nat2Z.id.
  rewrite splice_remove. rewrite <- Hlen, splice_remove. done.
Qed.

(** No registry built by calls has an own property of the key
    [__proto__]. *)
Lemma no_own_proto cs :
  iconsById (calls cs) !! "__proto__" = None ∧
  iconSchemaProperties (calls cs) !! "__proto__" = None.
Proof.
  induction cs as [|c cs IH] using rev_ind; [done|].
  destruct IH as [H1 H2]. unfold calls in *. rewrite foldl_app. simpl.
  destruct c as [i d desc dep|i]; simpl.
  - rewrite !lookup_assignOwn. by destruct (decide (i = "__proto__")).
  - rewrite !lookup_delete. by destruct (decide (i = "__proto__")).
Qed.

(** C9, at the id [__proto__]: after two calls of [registerIcon] with this
    id, [getIcons] holds no contribution for it.  The two assignments
    [this.iconsById[id] = iconContribution] set the prototype of the
    object, to the contribution of the second call, and create no key, so
    [getIcons] returns what it returned before the calls, while [enum]
    lists the id twice. *)
Theorem registerIcon_twice_proto (cs : list Call)
    (d1 d2 : IconDefaults) (desc1 dep1 desc2 dep2 : option string) :
  filter (λ c, id c = "__proto__")
    (getIcons (registerIcon "__proto__" d2 desc2 dep2
                 (registerIcon "__proto__" d1 desc1 dep1 (calls cs)).1).1) = [] ∧
  getIcons (registerIcon "__proto__" d2 desc2 dep2
              (registerIcon "__proto__" d1 desc1 dep1 (calls cs)).1).1
  = getIcons (calls cs) ∧
  iconsByIdPrototype
    (registerIcon "__proto__" d2 desc2 dep2
       (registerIcon "__proto__" d1 desc1 dep1 (calls cs)).1).1
  = Some {| id := "__proto__";
            description :=
              match desc2 with
              | Some (String c s) => String c s
              | _ => "Icon with identifier __proto__"
              end;
            deprecationMessage := dep2; defaults := d2 |} ∧
  (getIconReferenceSchema
     (registerIcon "__proto__" d2 desc2 dep2
        (registerIcon "__proto__" d1 desc1 dep1 (calls cs)).1).1).1
  = enum (calls cs) ++ ["__proto__"; "__proto__"].
Proof.
  destruct (consistent_calls cs) as [Hid _].
  destruct (no_own_proto cs) as [Hnone _].
  assert (getIcons (registerIcon "__proto__" d2 desc2 dep2
              (registerIcon "__proto__" d1 desc1 dep1 (calls cs)).1).1
          = getIcons (calls cs)) as Hsame by done.
  split_and!.
  - rewrite Hsame, getIcons_values.
    apply filter_none, Forall_forall. intros c Hin Hc.
    apply list_elem_of_fmap in Hin as ([k c'] & -> & Hin). simpl in Hc.
    apply elem_of_map_to_list in Hin.
    rewrite <- (Hid _ _ Hin), Hc in Hin. congruence.
  - done.
  - by destruct desc2 as [[|c s]|].
  - simpl. by rewrite <- app_assoc.
Qed.

(** X20: after two calls of [registerIcon] with the same id [i], which is
    not listed before and is not [__proto__], [getIcons] holds exactly one
    contribution with id [i], the one of the second call: its defaults,
    its deprecation message, and its description when it gave one that is
    not empty, the default text otherwise.  The [enum] of the reference
    schema lists [i] twice; one [deregisterIcon] removes the first of the
    two entries only: the entry of the second call stays in [enum] and
    [enumDescriptions], though the contribution is gone. *)
Theorem registerIcon_twice (cs : list Call) (i : string)
    (d1 d2 : IconDefaults) (desc1 dep1 desc2 dep2 : option string) :
  i ∉ enum (calls cs) →
  i ≠ "__proto__" →
  let r2 := (registerIcon i d2 desc2 dep2
               (registerIcon i d1 desc1 dep1 (calls cs)).1).1 in
  filter (λ c, id c = i) (getIcons r2) =
    [{| id := i;
        description :=
          match desc2 with
          | Some (String c s) => String c s
          | _ => "Icon with identifier " +:+ i
          end;
        deprecationMessage := dep2; defaults := d2 |}] ∧
  (getIconReferenceSchema r2).1 = enum (calls cs) ++ [i; i] ∧
  length (filter (λ x, x = i) (getIconReferenceSchema r2).1) = 2%nat ∧
  getIconReferenceSchema (deregisterIcon i r2) =
    (enum (calls cs) ++ [i],
     enumDescriptions (calls cs) ++
       [match desc2 with
        | Some (String c s) => String c s
        | _ => "Icon with identifier " +:+ i
        end]) ∧
  filter (λ c, id c = i) (getIcons (deregisterIcon i r2)) = [].
Proof.
  intros Hfresh Hproto r2.
  change (match desc2 with
          | Some (String c s) => String c s
          | _ => "Icon with identifier " +:+ i
          end) with (storedDescription i desc2).
  rewrite <- describedAs_stored.
  destruct (consistent_calls cs) as [Hid Hlen].
  set (r0 := calls cs) in *.
  set (r1 := (registerIcon i d1 desc1 dep1 r0).1) in *.
  assert (∀ k c, iconsById r1 !! k = Some c → id c = k) as Hid1.
  { apply (consistent_call r0 (RegisterIcon i d1 desc1 dep1)). by split. }
  assert (enum r2 = enum r0 ++ i :: [i]) as Henum.
  { simpl. by rewrite <- app_assoc. }
  assert (enumDescriptions r2 =
          enumDescriptions r0 ++ describedAs i desc1 :: [describedAs i desc2])
    as Hdesc.
  { simpl. by rewrite <- app_assoc. }
  split_and!.
  - apply (getIcons_insert r1); [done | by apply assignOwn_insert | done].
  - done.
  - change ((getIconReferenceSchema r2).1) with (enum r2).
    rewrite Henum, filter_app.
    rewrite (filter_none _ (enum r0)).
    + simpl. rewrite !filter_cons_True by done. done.
    + apply Forall_forall. intros x Hx ->. done.
  - by apply (deregisterIcon_first r2 i _ [i] _ (describedAs i desc1)).
  - rewrite getIcons_values. simpl iconsById.
    apply filter_none, Forall_forall. intros c Hin.
    apply list_elem_of_fmap in Hin as ([k c'] & -> & Hin). simpl.
    apply elem_of_map_to_list in Hin.
    rewrite lookup_delete in Hin. case_decide as Hk; [done|].
    rewrite assignOwn_insert, lookup_insert in Hin by done.
    case_decide; [done|].
    apply Hid1 in Hin. congruence.
Qed.

(** The ids ["add"] registered twice in the fresh registry. *)
Lemma registerIcon_twice_witness :
  ("add" ∉ enum (calls [])) ∧ "add" ≠ "__proto__" ∧
  getIconReferenceSchema
    (deregisterIcon "add"
       (registerIcon "add" (OfDefinition {| fontId := None; character := "B" |})
          None None
          (registerIcon "add" (OfDefinition {| fontId := None; character := "A" |})
             (Some "first") None (calls [])).1).1) =
  (["add"], ["Icon with identifier add"]).
Proof.
  split; [apply not_elem_of_nil|]. split; [discriminate|].
  apply (registerIcon_twice [] "add"
           (OfDefinition {| fontId := None; character := "A" |})
           (OfDefinition {| fontId := None; character := "B" |})
           (Some "first") None None None);
    [apply not_elem_of_nil | discriminate].
Defined.

End icon_registry.

(** ** The disassembly view *)

Section disassembly_view.
Import DisassemblyView.

(** The view on a source of full pages: the first page, then a scroll up
    and a scroll down. *)
Example first_page_keys :
  take 3 <$> (identityKeys <$> _disassembledInstructions
                (initialize (pageSource decimalInstruction) 18))
  = Some ["-50"; "-49"; "-48"].
Proof. reflexivity. Qed.

Example scroll_up_then_down :
  _lastOffset (scrolls (pageSource decimalInstruction) [scrollUp; scrollDown]
                 (initialize (pageSource decimalInstruction) 18)) = -100 ∧
  reveals (scrolls (pageSource decimalInstruction) [scrollUp; scrollDown]
             (initialize (pageSource decimalInstruction) 18)) =
    [{| index := 50; relativeTop := (1 # 2)%Q |};
     {| index := 61; relativeTop := 0%Q |}] ∧
  (λ rows, (take 1 rows, take 1 (drop 100 rows), length rows)) <$>
    (identityKeys <$> _disassembledInstructions
       (scrolls (pageSource decimalInstruction) [scrollUp; scrollDown]
          (initialize (pageSource decimalInstruction) 18)))
  = Some (["-100"], ["100"], 150%nat).
Proof. split; [reflexivity|]. split; [reflexivity|]. by vm_compute. Qed.

Lemma backward_test e :
  backwardCondition e ↔
  bool_decide (oldScrollTop e > scrollTop e) && bool_decide (scrollTop e < height e) = true.
Proof.
  unfold backwardCondition.
  rewrite andb_true_iff, !bool_decide_eq_true. lia.
Qed.

Lemma forward_test e :
  forwardCondition e ↔
  bool_decide (oldScrollTop e < scrollTop e)
  && bool_decide (scrollTop e + height e > scrollHeight e - height e) = true.
Proof.
  unfold forwardCondition.
  by rewrite andb_true_iff, !bool_decide_eq_true.
Qed.

Lemma conditions_exclusive e : ¬ (backwardCondition e ∧ forwardCondition e).
Proof. unfold backwardCondition, forwardCondition. lia. Qed.

Lemma onDidScroll_backward e this :
  backwardCondition e →
  onDidScroll e this =
  loadDisassembledInstructions
    (_lastOffset this - NUM_INSTRUCTIONS_TO_LOAD) NUM_INSTRUCTIONS_TO_LOAD
    (Some {| index := scrollTop e `div` lineHeight this + NUM_INSTRUCTIONS_TO_LOAD;
             relativeTop := 0%Q |})
    (setLastOffset (_lastOffset this - NUM_INSTRUCTIONS_TO_LOAD) this).
Proof.
  intros Hb. apply backward_test in Hb.
  unfold onDidScroll. by rewrite Hb.
Qed.

Lemma onDidScroll_forward e this rows :
  forwardCondition e →
  _disassembledInstructions this = Some rows →
  onDidScroll e this =
  loadDisassembledInstructions (Z.of_nat (length rows))
    NUM_INSTRUCTIONS_TO_LOAD None this.
Proof.
  intros Hf Hrows.
  assert (¬ backwardCondition e) as Hb.
  { intros Hb. by apply (conditions_exclusive e). }
  rewrite backward_test in Hb. apply not_true_is_false in Hb.
  apply forward_test in Hf.
  unfold onDidScroll. by rewrite Hb, Hf, Hrows.
Qed.

Lemma onDidScroll_neither e this :
  ¬ backwardCondition e → ¬ forwardCondition e → onDidScroll e this = this.
Proof.
  rewrite backward_test, forward_test. intros Hb Hf.
  apply not_true_is_false in Hb, Hf.
  unfold onDidScroll. by rewrite Hb, Hf.
Qed.

(** The request that a call of [loadDisassembledInstructions] has just
    added is the last outstanding one. *)
Lemma settle_loaded o n c s this :
  settle (length (outstanding this)) s (loadDisassembledInstructions o n c this) =
  match s with
  | Rejected =>
      {| lineHeight := lineHeight this;
         _disassembledInstructions := _disassembledInstructions this;
         _lastOffset := _lastOffset this;
         outstanding := outstanding this;
         reveals := reveals this;
         rejections := S (rejections this) |}
  | Resolved resultEntries =>
      let table := merge o resultEntries (_disassembledInstructions this) in
      {| lineHeight := lineHeight this;
         _disassembledInstructions := table;
         _lastOffset := _lastOffset this;
         outstanding := outstanding this;
         reveals := reveals this ++ runContinuation c table;
         rejections := rejections this |}
  end.
Proof.
  unfold settle, loadDisassembledInstructions. cbn [outstanding].
  rewrite list_lookup_middle by done.
  assert (delete (length (outstanding this)) (outstanding this ++
    [{| offset := o; instructionCount := n; continuation := c |}])
    = outstanding this) as ->.
  { induction (outstanding this) as [|r l IH]; simpl; [done|]. by rewrite IH. }
  by destruct s.
Qed.

Lemma merge_prepend o resultEntries rows :
  o < 0 →
  merge o (Some resultEntries) (Some rows) = Some (newEntries resultEntries ++ rows).
Proof.
  intros Ho. unfold merge. rewrite bool_decide_eq_false_2 by lia. done.
Qed.

Lemma merge_append resultEntries rows :
  merge (Z.of_nat (length rows)) (Some resultEntries) (Some rows) =
  Some (rows ++ newEntries resultEntries).
Proof.
  unfold merge. rewrite bool_decide_eq_true_2 by lia.
  unfold tableSplice, splice. rewrite Nat2Z.id, Nat.add_0_r.
  rewrite take_ge, drop_ge by lia. by rewrite app_nil_r.
Qed.

Lemma merge_length o resultEntries rows :
  ∃ rows', merge o (Some resultEntries) (Some rows) = Some rows' ∧
           length rows' = (length rows + length resultEntries)%nat.
Proof.
  unfold merge, tableSplice, splice, newEntries.
  destruct (bool_decide (0 ≤ o)); eexists; split; try done.
  - rewrite Nat.add_0_r, !length_app, length_fmap.
    rewrite <- (take_drop (Z.to_nat o) rows) at 3.
    rewrite length_app. lia.
  - simpl. rewrite length_app, length_fmap, drop_0. lia.
Qed.

Lemma created_createEditor lh : created lh (createEditor (constructor lh)).
Proof. split_and!; simpl; [done | by eexists | done]. Qed.

Lemma created_onDidScroll lh e this : created lh this → created lh (onDidScroll e this).
Proof.
  intros (Hlh & Hrows & Hoff). unfold onDidScroll.
  destruct (_ && _).
  { split_and!; simpl; [done | done | unfold NUM_INSTRUCTIONS_TO_LOAD in *; lia]. }
  destruct (_ && _); [|done].
  destruct Hrows as [rows Hrows]. rewrite Hrows.
  split_and!; simpl; [done | by rewrite Hrows | done].
Qed.

Lemma created_settle lh k s this : created lh this → created lh (settle k s this).
Proof.
  intros (Hlh & Hrows & Hoff). unfold settle.
  destruct (outstanding this !! k) as [r|]; [|done].
  destruct s as [|[res|]]; split_and!; simpl; try done.
  destruct Hrows as [rows ->]. simpl. by destruct (bool_decide _).
Qed.

Lemma created_run lh evs this : created lh this → created lh (run evs this).
Proof.
  unfold run. revert this.
  induction evs as [|ev evs IH]; intros this Hc; simpl; [done|].
  apply IH. destruct ev; simpl; [by apply created_onDidScroll | by apply created_settle].
Qed.

Lemma settle_at l1 r l2 s this :
  outstanding this = l1 ++ r :: l2 →
  settle (length l1) s this =
  match s with
  | Rejected =>
      {| lineHeight := lineHeight this;
         _disassembledInstructions := _disassembledInstructions this;
         _lastOffset := _lastOffset this;
         outstanding := l1 ++ l2;
         reveals := reveals this;
         rejections := S (rejections this) |}
  | Resolved resultEntries =>
      {| lineHeight := lineHeight this;
         _disassembledInstructions :=
           merge (offset r) resultEntries (_disassembledInstructions this);
         _lastOffset := _lastOffset this;
         outstanding := l1 ++ l2;
         reveals := reveals this ++
           runContinuation (continuation r)
             (merge (offset r) resultEntries (_disassembledInstructions this));
         rejections := rejections this |}
  end.
Proof.
  intros Hout. unfold settle. rewrite Hout.
  rewrite list_lookup_middle by done.
  assert (delete (length l1) (l1 ++ r :: l2) = l1 ++ l2) as ->.
  { clear. induction l1 as [|x l1 IH]; simpl; [done|]. by rewrite IH. }
  by destruct s.
Qed.

Lemma run_snoc evs ev this : run (evs ++ [ev]) this = step (run evs this) ev.
Proof. unfold run. by rewrite foldl_app. Qed.

Lemma created_editorAfter lh evs : created lh (editorAfter lh evs).
Proof. apply created_run, created_createEditor. Qed.

Lemma newEntries_rows page :
  newEntries page =
  (λ i, {| allowBreakpoint := true; isBreakpointSet := false; instruction := i |})
    <$> page.
Proof. done. Qed.

(** C2: a scroll event that moved up and ended less than one viewport
    height from the top decrements [_lastOffset] by the page size and
    requests a page of that size at the new offset; when the page arrives
    its instructions, one row each, in their order, are prepended to the
    window, every row that was loaded moves down by the number of new
    rows, and the view is revealed at the row that was topmost
    ([scrollTop / lineHeight], rounded down, for a positive line height)
    plus the page size, with relative top 0.  The page is prepended and
    the view revealed at that row also when the page arrives later, after
    other pages have changed the window. *)
Theorem backward_fetch_prepends (lh : Z) (evs : list Event) (e : ScrollEvent)
    (resultEntries : list DebugProtocol.DisassembledInstruction) :
  0 < lh →
  backwardCondition e →
  let this := editorAfter lh evs in
  let topElement := scrollTop e `div` lh + NUM_INSTRUCTIONS_TO_LOAD in
  let fetching := onDidScroll e this in
  let merged :=
    settle (length (outstanding this)) (Resolved (Some resultEntries)) fetching in
  let entry := λ i,
    {| allowBreakpoint := true; isBreakpointSet := false; instruction := i |} in
  _lastOffset fetching = _lastOffset this - NUM_INSTRUCTIONS_TO_LOAD ∧
  outstanding fetching = outstanding this ++
    [{| offset := _lastOffset this - NUM_INSTRUCTIONS_TO_LOAD;
        instructionCount := NUM_INSTRUCTIONS_TO_LOAD;
        continuation := Some {| index := topElement; relativeTop := 0%Q |} |}] ∧
  ∃ rows,
    _disassembledInstructions this = Some rows ∧
    _disassembledInstructions fetching = Some rows ∧
    _disassembledInstructions merged = Some ((entry <$> resultEntries) ++ rows) ∧
    (∀ j i, resultEntries !! j = Some i →
            ((entry <$> resultEntries) ++ rows) !! j = Some (entry i)) ∧
    (∀ i, ((entry <$> resultEntries) ++ rows) !! (length resultEntries + i)%nat
          = rows !! i) ∧
    reveals merged = reveals this ++ [{| index := topElement; relativeTop := 0%Q |}] ∧
    _lastOffset merged = _lastOffset this - NUM_INSTRUCTIONS_TO_LOAD ∧
    outstanding merged = outstanding this ∧
    (∀ later k rows',
       outstanding later !! k =
         Some {| offset := _lastOffset this - NUM_INSTRUCTIONS_TO_LOAD;
                 instructionCount := NUM_INSTRUCTIONS_TO_LOAD;
                 continuation :=
                   Some {| index := topElement; relativeTop := 0%Q |} |} →
       _disassembledInstructions later = Some rows' →
       _disassembledInstructions (settle k (Resolved (Some resultEntries)) later)
         = Some ((entry <$> resultEntries) ++ rows') ∧
       reveals (settle k (Resolved (Some resultEntries)) later)
         = reveals later ++ [{| index := topElement; relativeTop := 0%Q |}]).
Proof.
  intros _ Hb this topElement fetching merged entry.
  destruct (created_editorAfter lh evs) as (Hlh & [rows Hrows] & Hoff).
  fold this in Hlh, Hrows, Hoff.
  assert (fetching = loadDisassembledInstructions
    (_lastOffset this - NUM_INSTRUCTIONS_TO_LOAD) NUM_INSTRUCTIONS_TO_LOAD
    (Some {| index := topElement; relativeTop := 0%Q |})
    (setLastOffset (_lastOffset this - NUM_INSTRUCTIONS_TO_LOAD) this)) as Hfetch.
  { unfold fetching, topElement. rewrite <- Hlh. by apply onDidScroll_backward. }
  split; [by rewrite Hfetch|]. split; [by rewrite Hfetch|].
  exists rows. split; [done|]. split; [by rewrite Hfetch|].
  assert (merged = settle
    (length (outstanding (setLastOffset (_lastOffset this - NUM_INSTRUCTIONS_TO_LOAD) this)))
    (Resolved (Some resultEntries)) fetching) as -> by done.
  rewrite Hfetch, settle_loaded. cbn [_disassembledInstructions setLastOffset
    reveals _lastOffset outstanding].
  rewrite Hrows, merge_prepend by (unfold NUM_INSTRUCTIONS_TO_LOAD in *; lia).
  rewrite newEntries_rows. fold entry.
  split_and!; try done.
  - intros j i Hj. apply lookup_app_l_Some. by rewrite list_lookup_fmap, Hj.
  - intros i. rewrite lookup_app_r by (rewrite length_fmap; lia).
    f_equal. rewrite length_fmap. lia.
  - intros later k rows' Hk Hrows'. unfold settle. rewrite Hk.
    cbn [_disassembledInstructions reveals offset continuation].
    rewrite Hrows', merge_prepend by (unfold NUM_INSTRUCTIONS_TO_LOAD in *; lia).
    by rewrite newEntries_rows.
Qed.

(** The window holds the first page, the positions -50 to -1; the view is
    scrolled up and the page of the positions -100 to -51 arrives. *)
Lemma backward_fetch_prepends_witness :
  0 < 18 ∧ backwardCondition scrollUp ∧
  (λ rows, (take 2 (identityKeys rows), identityKeys rows !! 50%nat, length rows)) <$>
    _disassembledInstructions
      (settle
         (length (outstanding (editorAfter 18
            [Settles 0 (pageSource decimalInstruction (-50) 50)])))
         (Resolved (Some (decimalInstruction <$> seqZ (-100) 50)))
         (onDidScroll scrollUp
            (editorAfter 18 [Settles 0 (pageSource decimalInstruction (-50) 50)])))
  = Some (["-100"; "-99"], Some "-50", 100%nat).
Proof.
  assert (backwardCondition scrollUp) as Hb.
  { unfold backwardCondition. simpl. lia. }
  split; [lia|]. split; [exact Hb|].
  destruct (backward_fetch_prepends 18
              [Settles 0 (pageSource decimalInstruction (-50) 50)] scrollUp
              (decimalInstruction <$> seqZ (-100) 50) eq_refl Hb)
    as (_ & _ & rows & Hrows & _ & Hmerged & _).
  rewrite Hmerged.
  assert (Some rows = Some (rowsAt decimalInstruction (seqZ (-50) 50))) as Heq
    by (rewrite <- Hrows; reflexivity).
  injection Heq as ->. reflexivity.
Defined.




(** C6: one scroll event launches at most one fetch.  The two conditions
    exclude each other; the test of the backward branch comes first, and
    when it holds the one fetch is the backward one, whatever the distance
    to the bottom of the content is. *)
Theorem one_fetch_per_scroll_event (this : DisassemblyView) (e : ScrollEvent) :
  ¬ (backwardCondition e ∧ forwardCondition e) ∧
  (∃ rs, outstanding (onDidScroll e this) = outstanding this ++ rs ∧
         (length rs ≤ 1)%nat) ∧
  (backwardCondition e →
     _lastOffset (onDidScroll e this) = _lastOffset this - NUM_INSTRUCTIONS_TO_LOAD ∧
     outstanding (onDidScroll e this) = outstanding this ++
       [{| offset := _lastOffset this - NUM_INSTRUCTIONS_TO_LOAD;
           instructionCount := NUM_INSTRUCTIONS_TO_LOAD;
           continuation :=
             Some {| index := scrollTop e `div` lineHeight this
                              + NUM_INSTRUCTIONS_TO_LOAD;
                     relativeTop := 0%Q |} |}]) ∧
  (¬ backwardCondition e →
     _lastOffset (onDidScroll e this) = _lastOffset this ∧
     ∃ rs, outstanding (onDidScroll e this) = outstanding this ++ rs ∧
           Forall (λ r, continuation r = None) rs).
Proof.
  split; [apply conditions_exclusive|].
  destruct (decide (backwardCondition e)) as [Hb|Hb].
  - rewrite onDidScroll_backward by done.
    split; [by eexists [_]|]. split; [done|]. by intros [].
  - assert (∃ rs, onDidScroll e this =
        {| lineHeight := lineHeight this;
           _disassembledInstructions := _disassembledInstructions this;
           _lastOffset := _lastOffset this;
           outstanding := outstanding this ++ rs;
           reveals := reveals this;
           rejections := rejections this |} ∧
        (length rs ≤ 1)%nat ∧ Forall (λ r, continuation r = None) rs)
      as (rs & -> & Hlen & Hnone).
    { destruct (decide (forwardCondition e)) as [Hf|Hf];
        [destruct (_disassembledInstructions this) as [rows|] eqn:Hrows|].
      - rewrite (onDidScroll_forward e this rows) by done.
        eexists [_]. unfold loadDisassembledInstructions. rewrite Hrows.
        split; [done|]. split; [simpl; lia|]. by repeat constructor.
      - exists []. split; [|split; [simpl; lia | constructor]].
        apply forward_test in Hf.
        rewrite backward_test in Hb. apply not_true_is_false in Hb.
        unfold onDidScroll. rewrite Hb, Hf, Hrows, app_nil_r.
        destruct this; simpl in *; by subst.
      - exists []. split; [|split; [simpl; lia | constructor]].
        rewrite onDidScroll_neither, app_nil_r by done. by destruct this. }

    cbn [outstanding _lastOffset].
    split; [by exists rs|]. split; [done|].
    intros _. split; [done|]. by exists rs.
Qed.

(** A viewport that is at once near the top and near the bottom of the
    content, scrolled up: the backward fetch alone goes out. *)
Lemma one_fetch_per_scroll_event_witness :
  offset <$> outstanding
    (onDidScroll
       {| oldScrollTop := 20; scrollTop := 10; height := 300; scrollHeight := 400 |}
       (initialize (pageSource decimalInstruction) 18)) = [-100].
Proof.
  pose proof (one_fetch_per_scroll_event
    (initialize (pageSource decimalInstruction) 18)
    {| oldScrollTop := 20; scrollTop := 10; height := 300; scrollHeight := 400 |})
    as (_ & _ & Hb & _).
  destruct Hb as [_ Hout].
  { unfold backwardCondition. simpl. lia. }
  rewrite Hout. reflexivity.
Defined.

(** C8: when a request resolves with instructions, however few, the
    window grows by exactly their number and no promise rejects; with no
    instructions at all the window stays as it is. *)
Theorem short_page_extends_window (this : DisassemblyView) (k : nat) (r : Request)
    (resultEntries : list DebugProtocol.DisassembledInstruction)
    (rows : list IDisassembledInstructionEntry) :
  outstanding this !! k = Some r →
  _disassembledInstructions this = Some rows →
  (∃ rows',
     _disassembledInstructions (settle k (Resolved (Some resultEntries)) this)
       = Some rows' ∧
     length rows' = (length rows + length resultEntries)%nat) ∧
  rejections (settle k (Resolved (Some resultEntries)) this) = rejections this ∧
  _disassembledInstructions (settle k (Resolved (Some [])) this) = Some rows.
Proof.
  intros Hk Hrows. unfold settle. rewrite Hk.
  cbn [_disassembledInstructions rejections]. rewrite Hrows.
  split_and!; [apply merge_length | done |].
  unfold merge, tableSplice, splice, newEntries.
  destruct (bool_decide (0 ≤ offset r)); simpl.
  - by rewrite Nat.add_0_r, take_drop.
  - by rewrite drop_0.
Qed.

(** The first request of the view resolves with three instructions, and
    with none. *)
Lemma short_page_extends_window_witness :
  outstanding (editorAfter 18 []) !! 0%nat =
    Some {| offset := -50; instructionCount := 50;
            continuation := Some {| index := 50; relativeTop := (1 # 2)%Q |} |} ∧
  _disassembledInstructions (editorAfter 18 []) = Some [] ∧
  _disassembledInstructions (settle 0 (Resolved (Some [])) (editorAfter 18 []))
    = Some [].
Proof.
  split; [reflexivity|]. split; [reflexivity|].
  exact (proj2 (proj2 (short_page_extends_window (editorAfter 18 []) 0 _
    (decimalInstruction <$> [-50; -49; -48]) [] eq_refl eq_refl))).
Defined.

(** C4, as the code has it: [createEditor] sets [_lastOffset] to -50 and
    requests 50 instructions at the offset -50 (not 0); the page that
    arrives holds the logical positions [[-50, 0)] of the source and fills
    the rows 0 to 49 of the window; the view is then revealed at row 50
    with relative top 1/2. *)
Theorem initialize_first_page
    (instructionAt : Z → DebugProtocol.DisassembledInstruction) (lh : Z) :
  _lastOffset (createEditor (constructor lh)) = -50 ∧
  _disassembledInstructions (createEditor (constructor lh)) = Some [] ∧
  outstanding (createEditor (constructor lh)) =
    [{| offset := -50; instructionCount := 50;
        continuation := Some {| index := 50; relativeTop := (1 # 2)%Q |} |}] ∧
  _disassembledInstructions (initialize (pageSource instructionAt) lh) =
    Some (rowsAt instructionAt (seqZ (-50) 50)) ∧
  length (rowsAt instructionAt (seqZ (-50) 50)) = 50%nat ∧
  spansWindow instructionAt (initialize (pageSource instructionAt) lh) ∧
  reveals (initialize (pageSource instructionAt) lh) =
    [{| index := 50; relativeTop := (1 # 2)%Q |}] ∧
  _lastOffset (initialize (pageSource instructionAt) lh) = -50 ∧
  outstanding (initialize (pageSource instructionAt) lh) = [].
Proof.
  split_and!; try reflexivity.
  eexists. split; reflexivity.
Qed.

(** The first request is not anchored at 0, and the first page does not
    hold the positions [[0, 50)]. *)
Lemma initial_fetch_not_at_origin :
  ¬ (∃ r rows,
       outstanding (createEditor (constructor 18)) = [r] ∧ offset r = 0 ∧
       _disassembledInstructions (initialize (pageSource decimalInstruction) 18)
         = Some rows ∧
       instruction <$> rows = decimalInstruction <$> seqZ 0 NUM_INSTRUCTIONS_TO_LOAD).
Proof.
  intros (r & rows & Hr & Ho & _). simpl in Hr.
  injection Hr as <-. discriminate Ho.
Qed.

(** C5, as the code has it: the handler keeps no record of the fetches
    that are outstanding.  Every scroll event that qualifies for a fetch,
    backward or forward, launches its own, whatever is outstanding.  Two
    scroll events that both qualify for a backward fetch launch two
    fetches, the second anchored one page below the first, and when both
    pages arrive, in either order, both are prepended: the page that
    arrives later lies on top. *)
Theorem scroll_events_fetch_concurrently (lh : Z) (evs : list Event)
    (e1 e2 : ScrollEvent)
    (page1 page2 : list DebugProtocol.DisassembledInstruction) :
  backwardCondition e1 → backwardCondition e2 →
  let this := editorAfter lh evs in
  let fetching := onDidScroll e2 (onDidScroll e1 this) in
  let n := length (outstanding this) in
  let entry := λ i,
    {| allowBreakpoint := true; isBreakpointSet := false; instruction := i |} in
  (∀ e, backwardCondition e ∨ forwardCondition e →
        ∃ r, outstanding (onDidScroll e this) = outstanding this ++ [r]) ∧
  _lastOffset fetching = _lastOffset this - 2 * NUM_INSTRUCTIONS_TO_LOAD ∧
  outstanding fetching = outstanding this ++
    [{| offset := _lastOffset this - NUM_INSTRUCTIONS_TO_LOAD;
        instructionCount := NUM_INSTRUCTIONS_TO_LOAD;
        continuation :=
          Some {| index := scrollTop e1 `div` lh + NUM_INSTRUCTIONS_TO_LOAD;
                  relativeTop := 0%Q |} |};
     {| offset := _lastOffset this - 2 * NUM_INSTRUCTIONS_TO_LOAD;
        instructionCount := NUM_INSTRUCTIONS_TO_LOAD;
        continuation :=
          Some {| index := scrollTop e2 `div` lh + NUM_INSTRUCTIONS_TO_LOAD;
                  relativeTop := 0%Q |} |}] ∧
  ∃ rows,
    _disassembledInstructions this = Some rows ∧
    _disassembledInstructions
      (settle n (Resolved (Some page2))
         (settle n (Resolved (Some page1)) fetching))
    = Some ((entry <$> page2) ++ (entry <$> page1) ++ rows) ∧
    _disassembledInstructions
      (settle n (Resolved (Some page1))
         (settle (S n) (Resolved (Some page2)) fetching))
    = Some ((entry <$> page1) ++ (entry <$> page2) ++ rows).
Proof.
  intros Hb1 Hb2 this fetching n entry.
  destruct (created_editorAfter lh evs) as (Hlh & [rows Hrows] & Hoff).
  fold this in Hlh, Hrows, Hoff.
  split.
  { intros e [Hb|Hf].
    - rewrite onDidScroll_backward by done. by eexists.
    - rewrite (onDidScroll_forward e this rows) by done. by eexists. }
  assert (outstanding fetching = outstanding this ++
    [{| offset := _lastOffset this - NUM_INSTRUCTIONS_TO_LOAD;
        instructionCount := NUM_INSTRUCTIONS_TO_LOAD;
        continuation :=
          Some {| index := scrollTop e1 `div` lh + NUM_INSTRUCTIONS_TO_LOAD;
                  relativeTop := 0%Q |} |};
     {| offset := _lastOffset this - 2 * NUM_INSTRUCTIONS_TO_LOAD;
        instructionCount := NUM_INSTRUCTIONS_TO_LOAD;
        continuation :=
          Some {| index := scrollTop e2 `div` lh + NUM_INSTRUCTIONS_TO_LOAD;
                  relativeTop := 0%Q |} |}]) as Hout.
  { unfold fetching. rewrite !onDidScroll_backward by done.
    cbn [outstanding loadDisassembledInstructions setLastOffset _lastOffset lineHeight].
    rewrite <- app_assoc, Hlh. simpl. do 4 f_equal; lia. }
  assert (_disassembledInstructions fetching = Some rows) as Hrows'.
  { unfold fetching. by rewrite !onDidScroll_backward by done. }
  assert (_lastOffset fetching = _lastOffset this - 2 * NUM_INSTRUCTIONS_TO_LOAD)
    as Hoff'.
  { unfold fetching. rewrite !onDidScroll_backward by done. simpl. lia. }
  split; [done|]. split; [done|].
  exists rows. split; [done|]. split.
  - unfold n. rewrite (settle_at _ _ _ _ fetching Hout).
    erewrite settle_at by (cbn [outstanding]; reflexivity).
    cbn [_disassembledInstructions offset]. rewrite Hrows'.
    rewrite merge_prepend by (unfold NUM_INSTRUCTIONS_TO_LOAD in *; lia).
    rewrite merge_prepend by (unfold NUM_INSTRUCTIONS_TO_LOAD in *; lia).
    by rewrite !newEntries_rows.
  - assert (outstanding fetching =
      (outstanding this ++
       [{| offset := _lastOffset this - NUM_INSTRUCTIONS_TO_LOAD;
           instructionCount := NUM_INSTRUCTIONS_TO_LOAD;
           continuation :=
             Some {| index := scrollTop e1 `div` lh + NUM_INSTRUCTIONS_TO_LOAD;
                     relativeTop := 0%Q |} |}]) ++
      {| offset := _lastOffset this - 2 * NUM_INSTRUCTIONS_TO_LOAD;
         instructionCount := NUM_INSTRUCTIONS_TO_LOAD;
         continuation :=
           Some {| index := scrollTop e2 `div` lh + NUM_INSTRUCTIONS_TO_LOAD;
                   relativeTop := 0%Q |} |} :: []) as Hout2.
    { rewrite Hout. by rewrite <- app_assoc. }
    replace (S n) with (length (outstanding this ++
       [{| offset := _lastOffset this - NUM_INSTRUCTIONS_TO_LOAD;
           instructionCount := NUM_INSTRUCTIONS_TO_LOAD;
           continuation :=
             Some {| index := scrollTop e1 `div` lh + NUM_INSTRUCTIONS_TO_LOAD;
                     relativeTop := 0%Q |} |}]))
      by (rewrite length_app; simpl; unfold n; lia).
    rewrite (settle_at _ _ _ _ fetching Hout2).
    unfold n.
    erewrite settle_at by (cbn [outstanding]; rewrite app_nil_r; reflexivity).
    cbn [_disassembledInstructions offset]. rewrite Hrows'.
    rewrite merge_prepend by (unfold NUM_INSTRUCTIONS_TO_LOAD in *; lia).
    rewrite merge_prepend by (unfold NUM_INSTRUCTIONS_TO_LOAD in *; lia).
    by rewrite !newEntries_rows.
Qed.

(** The window holds the first page; two scroll events towards the top
    request the pages at -100 and at -150, which arrive in the order of
    the requests, or in the other order. *)
Lemma scroll_events_fetch_concurrently_witness :
  backwardCondition scrollUp ∧ backwardCondition scrollUpAgain ∧
  (λ rows, (identityKeys rows !! 0%nat, identityKeys rows !! 50%nat,
            identityKeys rows !! 100%nat, length rows)) <$>
    _disassembledInstructions
      (settle
         (length (outstanding (editorAfter 18
            [Settles 0 (pageSource decimalInstruction (-50) 50)])))
         (Resolved (Some (decimalInstruction <$> seqZ (-150) 50)))
         (settle
            (length (outstanding (editorAfter 18
               [Settles 0 (pageSource decimalInstruction (-50) 50)])))
            (Resolved (Some (decimalInstruction <$> seqZ (-100) 50)))
            (onDidScroll scrollUpAgain (onDidScroll scrollUp
               (editorAfter 18
                  [Settles 0 (pageSource decimalInstruction (-50) 50)])))))
  = Some (Some "-150", Some "-100", Some "-50", 150%nat) ∧
  (λ rows, (identityKeys rows !! 0%nat, identityKeys rows !! 50%nat,
            identityKeys rows !! 100%nat, length rows)) <$>
    _disassembledInstructions
      (settle
         (length (outstanding (editorAfter 18
            [Settles 0 (pageSource decimalInstruction (-50) 50)])))
         (Resolved (Some (decimalInstruction <$> seqZ (-100) 50)))
         (settle
            (S (length (outstanding (editorAfter 18
               [Settles 0 (pageSource decimalInstruction (-50) 50)]))))
            (Resolved (Some (decimalInstruction <$> seqZ (-150) 50)))
            (onDidScroll scrollUpAgain (onDidScroll scrollUp
               (editorAfter 18
                  [Settles 0 (pageSource decimalInstruction (-50) 50)])))))
  = Some (Some "-100", Some "-150", Some "-50", 150%nat).
Proof.
  assert (backwardCondition scrollUp) as Hb1.
  { unfold backwardCondition. simpl. lia. }
  assert (backwardCondition scrollUpAgain) as Hb2.
  { unfold backwardCondition. simpl. lia. }
  split; [exact Hb1|]. split; [exact Hb2|].
  destruct (scroll_events_fetch_concurrently 18
              [Settles 0 (pageSource decimalInstruction (-50) 50)]
              scrollUp scrollUpAgain
              (decimalInstruction <$> seqZ (-100) 50)
              (decimalInstruction <$> seqZ (-150) 50) Hb1 Hb2)
    as (_ & _ & _ & rows & Hrows & Hmerged & Hreversed).
  rewrite Hmerged, Hreversed.
  assert (Some rows = Some (rowsAt decimalInstruction (seqZ (-50) 50))) as Heq
    by (rewrite <- Hrows; reflexivity).
  injection Heq as ->. split; reflexivity.
Defined.

(** Two scroll events towards the top while the fetch of the first is
    outstanding: two fetches go out, and two pages are prepended to the 50
    rows of the first page. *)
Lemma rapid_backward_scrolls_fetch_twice :
  offset <$> outstanding
    (run [DidScroll scrollUp; DidScroll scrollUpAgain]
       (initialize (pageSource decimalInstruction) 18)) = [-100; -150] ∧
  length <$> _disassembledInstructions
    (quiesce (pageSource decimalInstruction)
       (run [DidScroll scrollUp; DidScroll scrollUpAgain]
          (initialize (pageSource decimalInstruction) 18))) = Some 150%nat ∧
  ¬ (length (outstanding
       (run [DidScroll scrollUp; DidScroll scrollUpAgain]
          (initialize (pageSource decimalInstruction) 18))) ≤ 1)%nat.
Proof.
  split; [reflexivity|]. split; [by vm_compute|].
  vm_compute. lia.
Qed.




(** *** Runs in which every fetch settles before the next event *)

Lemma StronglySorted_seqZ m n : StronglySorted Z.lt (seqZ m n).
Proof.
  destruct (decide (n ≤ 0)) as [Hn|Hn]; [rewrite seqZ_nil by done; constructor|].
  rewrite <- (Z2Nat.id n) by lia. generalize (Z.to_nat n) as k. clear. intros k.
  revert m. induction k as [|k IH]; intros m.
  - rewrite seqZ_nil by done. constructor.
  - rewrite seqZ_cons by lia.
    replace (Z.pred (Z.of_nat (S k))) with (Z.of_nat k) by lia.
    constructor; [apply IH|].
    apply Forall_seqZ. lia.
Qed.

Lemma StronglySorted_lt_NoDup (l : list Z) : StronglySorted Z.lt l → NoDup l.
Proof.
  induction 1 as [|x l _ IH Hx]; constructor; [|done].
  intros Hin. rewrite Forall_forall in Hx. specialize (Hx x Hin). lia.
Qed.

Lemma quiesce_idle src this : outstanding this = [] → quiesce src this = this.
Proof. intros Hout. unfold quiesce. by rewrite Hout. Qed.

Lemma quiesce_loaded src o n c this :
  outstanding this = [] →
  quiesce src (loadDisassembledInstructions o n c this) =
  settle (length (outstanding this)) (src o n)
    (loadDisassembledInstructions o n c this).
Proof.
  intros Hout. unfold quiesce. cbn [outstanding loadDisassembledInstructions].
  rewrite Hout. simpl. rewrite Hout. simpl. done.
Qed.

Lemma identityKeys_rowsAt instructionAt ps :
  identityKeys (rowsAt instructionAt ps) =
  (λ p, DebugProtocol.address (instructionAt p)) <$> ps.
Proof.
  unfold identityKeys, rowsAt, newEntries.
  rewrite <- !list_fmap_compose. done.
Qed.

Lemma instruction_rowsAt instructionAt ps :
  instruction <$> rowsAt instructionAt ps = instructionAt <$> ps.
Proof.
  unfold rowsAt, newEntries.
  induction ps as [|p ps IH]; [done|]. rewrite !fmap_cons. simpl. by rewrite IH.
Qed.

Lemma length_rowsAt instructionAt ps :
  length (rowsAt instructionAt ps) = length ps.
Proof. unfold rowsAt, newEntries. by rewrite !length_fmap. Qed.

Lemma rowsAt_app instructionAt ps qs :
  rowsAt instructionAt (ps ++ qs) = rowsAt instructionAt ps ++ rowsAt instructionAt qs.
Proof. unfold rowsAt, newEntries. by rewrite !fmap_app. Qed.

Section full_pages.
Variable instructionAt : Z → DebugProtocol.DisassembledInstruction.

Lemma loaded_initialize lh : loaded instructionAt [] (initialize (pageSource instructionAt) lh).
Proof.
  unfold loaded. split_and!; try done. constructor.
Qed.

Lemma loaded_backward fs this e :
  loaded instructionAt fs this → backwardCondition e →
  loaded instructionAt fs (fetchAndMerge (pageSource instructionAt) this e) ∧
  _lastOffset (fetchAndMerge (pageSource instructionAt) this e) =
    _lastOffset this - NUM_INSTRUCTIONS_TO_LOAD ∧
  ∃ rows, _disassembledInstructions this = Some rows ∧
    _disassembledInstructions (fetchAndMerge (pageSource instructionAt) this e) =
    Some (rowsAt instructionAt
            (seqZ (_lastOffset this - NUM_INSTRUCTIONS_TO_LOAD) NUM_INSTRUCTIONS_TO_LOAD)
          ++ rows).
Proof.
  intros (Hout & Hoff & Hrows & Hfs & Hsorted) Hb.
  unfold fetchAndMerge. rewrite onDidScroll_backward by done.
  rewrite quiesce_loaded by done. rewrite settle_loaded.
  unfold pageSource.
  cbn [setLastOffset _disassembledInstructions _lastOffset outstanding].
  rewrite Hrows.
  rewrite merge_prepend by (unfold NUM_INSTRUCTIONS_TO_LOAD in *; lia).
  split; [|split; [done | by eexists]].
  unfold loaded. cbn [_disassembledInstructions _lastOffset outstanding].
  split_and!; try done.
  - unfold NUM_INSTRUCTIONS_TO_LOAD in *. lia.
  - f_equal. fold (rowsAt instructionAt
      (seqZ (_lastOffset this - NUM_INSTRUCTIONS_TO_LOAD) NUM_INSTRUCTIONS_TO_LOAD)).
    rewrite <- rowsAt_app. f_equal. rewrite app_assoc. f_equal.
    unfold NUM_INSTRUCTIONS_TO_LOAD in *.
    replace (- (_lastOffset this - 50)) with (50 + - _lastOffset this) by lia.
    rewrite seqZ_app by lia. do 2 f_equal. lia.
  - eapply Forall_impl; [exact Hfs|]. simpl.
    unfold NUM_INSTRUCTIONS_TO_LOAD. lia.
Qed.

Lemma loaded_forward fs this e :
  loaded instructionAt fs this → forwardCondition e →
  ∃ fs', loaded instructionAt fs' (fetchAndMerge (pageSource instructionAt) this e) ∧
         _lastOffset (fetchAndMerge (pageSource instructionAt) this e) = _lastOffset this ∧
         fs' ≠ [].
Proof.
  intros (Hout & Hoff & Hrows & Hfs & Hsorted) Hf.
  set (rows := rowsAt instructionAt (seqZ (_lastOffset this) (- _lastOffset this) ++ fs)) in *.
  assert (Z.of_nat (length rows) = - _lastOffset this + Z.of_nat (length fs)) as Hlen.
  { unfold rows. rewrite length_rowsAt, length_app, length_seqZ.
    unfold NUM_INSTRUCTIONS_TO_LOAD in *. lia. }
  exists (fs ++ seqZ (Z.of_nat (length rows)) NUM_INSTRUCTIONS_TO_LOAD).
  unfold fetchAndMerge. rewrite (onDidScroll_forward e this rows) by done.
  rewrite quiesce_loaded by done. rewrite settle_loaded.
  unfold pageSource.
  cbn [_disassembledInstructions _lastOffset outstanding].
  rewrite Hrows, merge_append.
  split; [|split; [done|]]; cycle 1.
  { unfold NUM_INSTRUCTIONS_TO_LOAD. rewrite seqZ_cons by lia.
    intros Hnil. by apply app_nil in Hnil as [_ ?]. }
  unfold loaded. cbn [_disassembledInstructions _lastOffset outstanding].
  split_and!; try done.
  - f_equal. fold (rowsAt instructionAt
      (seqZ (Z.of_nat (length rows)) NUM_INSTRUCTIONS_TO_LOAD)).
    unfold rows. rewrite <- rowsAt_app. by rewrite <- app_assoc.
  - rewrite length_app, length_seqZ. apply Forall_app. split.
    + eapply Forall_impl; [exact Hfs|]. simpl.
      unfold NUM_INSTRUCTIONS_TO_LOAD. lia.
    + apply Forall_seqZ. unfold NUM_INSTRUCTIONS_TO_LOAD in *. lia.
  - apply StronglySorted_app_2; [| done | apply StronglySorted_seqZ].
    intros p q Hp Hq. rewrite Forall_forall in Hfs. apply Hfs in Hp.
    apply elem_of_seqZ in Hq. lia.
Qed.

Lemma loaded_neither fs this e :
  loaded instructionAt fs this → ¬ backwardCondition e → ¬ forwardCondition e →
  fetchAndMerge (pageSource instructionAt) this e = this.
Proof.
  intros (Hout & _) Hb Hf. unfold fetchAndMerge.
  rewrite onDidScroll_neither by done. by apply quiesce_idle.
Qed.

Lemma loaded_scrolls lh es :
  ∃ fs, loaded instructionAt fs
          (scrolls (pageSource instructionAt) es
             (initialize (pageSource instructionAt) lh)) ∧
        (fs = [] ↔ Forall (λ e, ¬ forwardCondition e) es).
Proof.
  induction es as [|e es IH] using rev_ind.
  - exists []. split; [apply loaded_initialize | done].
  - destruct IH as (fs & Hloaded & Hnone).
    unfold scrolls in *. rewrite foldl_app. simpl.
    destruct (decide (backwardCondition e)) as [Hb|Hb].
    { exists fs. split; [by apply loaded_backward|].
      rewrite Forall_app, Forall_singleton, Hnone. split; [|by intros []].
      intros Hall. split; [done|]. intros Hf. by apply (conditions_exclusive e). }
    destruct (decide (forwardCondition e)) as [Hf|Hf].
    { destruct (loaded_forward fs _ e Hloaded Hf) as (fs' & Hloaded' & _ & Hne).
      exists fs'. split; [done|].
      rewrite Forall_app, Forall_singleton. split; [done | by intros [_ ?]]. }
    exists fs. rewrite (loaded_neither fs) by done. split; [done|].
    rewrite Forall_app, Forall_singleton, Hnone. split; [by intros ? | by intros []].
Qed.

End full_pages.

Section short_pages.
Variable instructionAt : Z → DebugProtocol.DisassembledInstruction.
Variable served : Z → Z → Z.

Lemma loadedFrom_initialize lh :
  ∃ bs, Interleaving.loadedFrom instructionAt bs []
          (initialize (Interleaving.prefixSource instructionAt served) lh).
Proof.
  exists (seqZ (- NUM_INSTRUCTIONS_TO_LOAD)
            (served (- NUM_INSTRUCTIONS_TO_LOAD) NUM_INSTRUCTIONS_TO_LOAD
             `min` NUM_INSTRUCTIONS_TO_LOAD)).
  unfold initialize, createEditor. cbv zeta. cbn [_lastOffset].
  rewrite quiesce_loaded by done. rewrite settle_loaded.
  unfold Interleaving.prefixSource.
  cbn [constructor _disassembledInstructions _lastOffset outstanding].
  rewrite merge_prepend by done.
  unfold Interleaving.loadedFrom.
  cbn [_disassembledInstructions _lastOffset outstanding].
  rewrite !app_nil_r.
  split_and!; try done.
  - apply StronglySorted_seqZ.
  - apply Forall_seqZ. unfold NUM_INSTRUCTIONS_TO_LOAD. lia.
  - constructor.
Qed.

Lemma loadedFrom_backward bs fs this e :
  Interleaving.loadedFrom instructionAt bs fs this → backwardCondition e →
  (∃ bs', Interleaving.loadedFrom instructionAt bs' fs
            (fetchAndMerge (Interleaving.prefixSource instructionAt served) this e)) ∧
  _lastOffset (fetchAndMerge (Interleaving.prefixSource instructionAt served) this e) =
    _lastOffset this - NUM_INSTRUCTIONS_TO_LOAD ∧
  _disassembledInstructions
    (fetchAndMerge (Interleaving.prefixSource instructionAt served) this e) =
    Some (newEntries (instructionAt <$>
            seqZ (_lastOffset this - NUM_INSTRUCTIONS_TO_LOAD)
              (served (_lastOffset this - NUM_INSTRUCTIONS_TO_LOAD)
                 NUM_INSTRUCTIONS_TO_LOAD `min` NUM_INSTRUCTIONS_TO_LOAD))
          ++ rowsAt instructionAt (bs ++ fs)).
Proof.
  intros (Hout & Hoff & Hrows & Hbs & Hbb & Hfs & Hfb) Hb.
  unfold fetchAndMerge. rewrite onDidScroll_backward by done.
  rewrite quiesce_loaded by done. rewrite settle_loaded.
  unfold Interleaving.prefixSource.
  cbn [setLastOffset _disassembledInstructions _lastOffset outstanding].
  rewrite Hrows.
  rewrite merge_prepend by (unfold NUM_INSTRUCTIONS_TO_LOAD in *; lia).
  split; [|done].
  eexists (seqZ _ _ ++ bs).
  unfold Interleaving.loadedFrom.
  cbn [_disassembledInstructions _lastOffset outstanding].
  split_and!; try done.
  - unfold NUM_INSTRUCTIONS_TO_LOAD in *. lia.
  - f_equal. unfold rowsAt. rewrite <- app_assoc.
    unfold newEntries. by rewrite !fmap_app.
  - apply StronglySorted_app_2; [| apply StronglySorted_seqZ | done].
    intros p q Hp Hq. apply elem_of_seqZ in Hp.
    rewrite Forall_forall in Hbb. apply Hbb in Hq.
    unfold NUM_INSTRUCTIONS_TO_LOAD in *. lia.
  - apply Forall_app. split.
    + apply Forall_seqZ. unfold NUM_INSTRUCTIONS_TO_LOAD in *. lia.
    + eapply Forall_impl; [exact Hbb|]. simpl.
      unfold NUM_INSTRUCTIONS_TO_LOAD. lia.
  - eapply Forall_impl; [exact Hfb|]. simpl. intros p.
    rewrite !length_app. lia.
Qed.

Lemma loadedFrom_forward bs fs this e :
  Interleaving.loadedFrom instructionAt bs fs this → forwardCondition e →
  ∃ fs', Interleaving.loadedFrom instructionAt bs fs'
           (fetchAndMerge (Interleaving.prefixSource instructionAt served) this e).
Proof.
  intros (Hout & Hoff & Hrows & Hbs & Hbb & Hfs & Hfb) Hf.
  set (rows := rowsAt instructionAt (bs ++ fs)) in *.
  assert (length rows = length (bs ++ fs)) as Hlen.
  { unfold rows. by rewrite length_rowsAt. }
  eexists (fs ++ seqZ (Z.of_nat (length rows)) _).
  unfold fetchAndMerge. rewrite (onDidScroll_forward e this rows) by done.
  rewrite quiesce_loaded by done. rewrite settle_loaded.
  unfold Interleaving.prefixSource.
  cbn [_disassembledInstructions _lastOffset outstanding].
  rewrite Hrows, merge_append.
  unfold Interleaving.loadedFrom.
  cbn [_disassembledInstructions _lastOffset outstanding].
  split_and!; try done.
  - f_equal. unfold rows, rowsAt, newEntries. by rewrite app_assoc, !fmap_app.
  - apply StronglySorted_app_2; [| done | apply StronglySorted_seqZ].
    intros p q Hp Hq. rewrite Forall_forall in Hfb. apply Hfb in Hp.
    apply elem_of_seqZ in Hq. lia.
  - rewrite Hlen. rewrite !length_app, length_seqZ. apply Forall_app. split.
    + eapply Forall_impl; [exact Hfb|]. simpl. intros p.
      rewrite length_app. lia.
    + apply Forall_seqZ. intros p Hp. lia.
Qed.

Lemma loadedFrom_neither bs fs this e :
  Interleaving.loadedFrom instructionAt bs fs this →
  ¬ backwardCondition e → ¬ forwardCondition e →
  fetchAndMerge (Interleaving.prefixSource instructionAt served) this e = this.
Proof.
  intros (Hout & _) Hb Hf. unfold fetchAndMerge.
  rewrite onDidScroll_neither by done. by apply quiesce_idle.
Qed.

Lemma loadedFrom_scrolls lh es :
  ∃ bs fs, Interleaving.loadedFrom instructionAt bs fs
             (scrolls (Interleaving.prefixSource instructionAt served) es
                (initialize (Interleaving.prefixSource instructionAt served) lh)).
Proof.
  induction es as [|e es IH] using rev_ind.
  - destruct (loadedFrom_initialize lh) as [bs Hbs]. by exists bs, [].
  - destruct IH as (bs & fs & Hloaded).
    unfold scrolls in *. rewrite foldl_app. simpl.
    destruct (decide (backwardCondition e)) as [Hb|Hb].
    { destruct (loadedFrom_backward bs fs _ e Hloaded Hb) as [[bs' Hbs'] _].
      by exists bs', fs. }
    destruct (decide (forwardCondition e)) as [Hf|Hf].
    { destruct (loadedFrom_forward bs fs _ e Hloaded Hf) as [fs' Hfs'].
      by exists bs, fs'. }
    exists bs, fs. by rewrite (loadedFrom_neither bs fs).
Qed.

End short_pages.

(** C1, as the code has it.  Every fetch settles before the next event,
    and the source answers a request with the instructions at the
    positions from the offset on, all that were requested or only the
    first few, instructions at different positions having different
    addresses.  Then, after any sequence of scroll events, the rows of the
    window are at strictly increasing positions, so no identity key occurs
    twice, and a backward fetch decreases [_lastOffset] by exactly the page
    size and prepends the page of that offset.  When the source answers
    with full pages, the window starts with the rows of the positions
    [[Offset, 0)], without a gap, followed by the rows [fs] that forward
    fetches appended, all at positions from the page size on, and the
    window is the span [[Offset, Offset + len)] exactly when no event
    qualified for a forward fetch. *)
Theorem window_after_fetches
    (instructionAt : Z → DebugProtocol.DisassembledInstruction)
    (served : Z → Z → Z) (lh : Z) (es : list ScrollEvent) (e : ScrollEvent) :
  (∀ p q, DebugProtocol.address (instructionAt p)
          = DebugProtocol.address (instructionAt q) → p = q) →
  let short := scrolls (Interleaving.prefixSource instructionAt served) es
                 (initialize (Interleaving.prefixSource instructionAt served) lh) in
  let full := scrolls (pageSource instructionAt) es
                (initialize (pageSource instructionAt) lh) in
  let entry := λ i,
    {| allowBreakpoint := true; isBreakpointSet := false; instruction := i |} in
  (∃ rows ps,
     _disassembledInstructions short = Some rows ∧
     instruction <$> rows = instructionAt <$> ps ∧
     StronglySorted Z.lt ps ∧
     NoDup (identityKeys rows) ∧
     (backwardCondition e →
        _lastOffset (fetchAndMerge (Interleaving.prefixSource instructionAt served)
                       short e)
          = _lastOffset short - NUM_INSTRUCTIONS_TO_LOAD ∧
        _disassembledInstructions
          (fetchAndMerge (Interleaving.prefixSource instructionAt served) short e)
          = Some ((entry <$> (instructionAt <$>
                     seqZ (_lastOffset short - NUM_INSTRUCTIONS_TO_LOAD)
                       (served (_lastOffset short - NUM_INSTRUCTIONS_TO_LOAD)
                          NUM_INSTRUCTIONS_TO_LOAD `min` NUM_INSTRUCTIONS_TO_LOAD)))
                  ++ rows))) ∧
  (∃ rows fs,
     _disassembledInstructions full = Some rows ∧
     instruction <$> rows =
       instructionAt <$> (seqZ (_lastOffset full) (- _lastOffset full) ++ fs) ∧
     Forall (λ p, NUM_INSTRUCTIONS_TO_LOAD ≤ p) fs ∧
     (spansWindow instructionAt full ↔ Forall (λ e, ¬ forwardCondition e) es)).
Proof.
  intros Hinj short full entry.
  assert (Inj (=) (=) instructionAt) as Hinj'.
  { intros p q Hpq. apply Hinj. by rewrite Hpq. }
  split.
  - destruct (loadedFrom_scrolls instructionAt served lh es)
      as (bs & fs & Hloaded).
    fold short in Hloaded.
    pose proof Hloaded as (Hout & Hoff & Hrows & Hbs & Hbb & Hfs & Hfb).
    assert (StronglySorted Z.lt (bs ++ fs)) as Hall.
    { apply StronglySorted_app_2; [|done|done].
      intros p q Hp Hq. rewrite Forall_forall in Hbb, Hfb.
      apply Hbb in Hp. apply Hfb in Hq. lia. }
    eexists _, (bs ++ fs). split; [exact Hrows|].
    split; [apply instruction_rowsAt|]. split; [done|]. split.
    + rewrite identityKeys_rowsAt. apply NoDup_fmap_2_strong.
      * intros p q _ _. apply Hinj.
      * by apply StronglySorted_lt_NoDup.
    + intros Hb.
      destruct (loadedFrom_backward instructionAt served bs fs short e Hloaded Hb)
        as (_ & Hoff' & Hmerged).
      split; [done|]. by rewrite Hmerged, newEntries_rows.
  - destruct (loaded_scrolls instructionAt lh es) as (fs & Hloaded & Hnone).
    fold full in Hloaded.
    pose proof Hloaded as (Hout & Hoff & Hrows & Hfs & Hsorted).
    eexists _, fs. split; [exact Hrows|].
    split; [apply instruction_rowsAt|]. split.
    { eapply Forall_impl; [exact Hfs|]. simpl. lia. }
    rewrite <- Hnone. split.
    + intros (rows' & Hrows' & Hspan).
      rewrite Hrows in Hrows'. injection Hrows' as <-.
      rewrite instruction_rowsAt, length_rowsAt, length_app, length_seqZ in Hspan.
      replace (Z.of_nat (Z.to_nat (- _lastOffset full) + length fs))
        with (- _lastOffset full + Z.of_nat (length fs)) in Hspan
        by (unfold NUM_INSTRUCTIONS_TO_LOAD in *; lia).
      rewrite seqZ_app in Hspan by (unfold NUM_INSTRUCTIONS_TO_LOAD in *; lia).
      apply (inj (fmap instructionAt)) in Hspan.
      apply app_inv_head in Hspan.
      destruct fs as [|p fs]; [done|]. exfalso.
      rewrite seqZ_cons in Hspan by (simpl length; lia).
      injection Hspan as Hp _.
      apply Forall_cons in Hfs as [Hp' _].
      unfold NUM_INSTRUCTIONS_TO_LOAD in *. lia.
    + intros ->. rewrite app_nil_r in Hrows.
      eexists. split; [exact Hrows|].
      rewrite instruction_rowsAt, length_rowsAt, length_seqZ. f_equal. f_equal.
      unfold NUM_INSTRUCTIONS_TO_LOAD in *. lia.
Qed.

Lemma decimalInstruction_inj p q :
  DebugProtocol.address (decimalInstruction p)
  = DebugProtocol.address (decimalInstruction q) → p = q.
Proof. simpl. apply (inj pretty). Qed.

(** The source serves 30 instructions per request; the view is scrolled up
    and then down: the pages at -50, at -100 and at 60.  With full pages
    the same events leave a window that is not the span, and two events
    scrolling up leave one that is. *)
Lemma window_after_fetches_witness :
  (∀ p q, DebugProtocol.address (decimalInstruction p)
          = DebugProtocol.address (decimalInstruction q) → p = q) ∧
  (∃ rows ps,
    _disassembledInstructions
      (scrolls (Interleaving.prefixSource decimalInstruction (λ _ _, 30))
         [scrollUp; scrollDown]
         (initialize (Interleaving.prefixSource decimalInstruction (λ _ _, 30)) 18))
    = Some rows ∧
    instruction <$> rows = decimalInstruction <$> ps ∧
    StronglySorted Z.lt ps ∧
    NoDup (identityKeys rows) ∧
    length rows = 90%nat) ∧
  ¬ spansWindow decimalInstruction
      (scrolls (pageSource decimalInstruction) [scrollUp; scrollDown]
         (initialize (pageSource decimalInstruction) 18)) ∧
  spansWindow decimalInstruction
    (scrolls (pageSource decimalInstruction) [scrollUp; scrollUp]
       (initialize (pageSource decimalInstruction) 18)).
Proof.
  split; [exact decimalInstruction_inj|].
  split; [|split].
  - destruct (window_after_fetches decimalInstruction (λ _ _, 30) 18
                [scrollUp; scrollDown] scrollUp decimalInstruction_inj)
      as [(rows & ps & H1 & H2 & H3 & H4 & _) _].
    exists rows, ps. split; [exact H1|]. split; [exact H2|].
    split; [exact H3|]. split; [exact H4|].
    assert (Some (length rows) = Some 90%nat) as Heq.
    { change (Some (length rows)) with (length <$> Some rows).
      rewrite <- H1. by vm_compute. }
    by injection Heq.
  - destruct (window_after_fetches decimalInstruction (λ _ _, 30) 18
                [scrollUp; scrollDown] scrollUp decimalInstruction_inj)
      as [_ (rows & fs & _ & _ & _ & Hiff)].
    intros Hspan. apply Hiff in Hspan.
    apply Forall_cons in Hspan as [_ Hspan].
    apply Forall_cons in Hspan as [Hdown _].
    apply Hdown. unfold forwardCondition, scrollDown. simpl. lia.
  - destruct (window_after_fetches decimalInstruction (λ _ _, 30) 18
                [scrollUp; scrollUp] scrollUp decimalInstruction_inj)
      as [_ (rows & fs & _ & _ & _ & Hiff)].
    apply Hiff. repeat constructor; unfold forwardCondition, scrollUp; simpl; lia.
Defined.

(** One forward fetch after the first page: the window holds the positions
    [[-50, 0)] and [[50, 100)], and not the span [[-50, 50)] that
    [_lastOffset] and its length delimit. *)
Lemma forward_fetch_leaves_gap :
  ¬ spansWindow decimalInstruction
      (scrolls (pageSource decimalInstruction) [scrollDown]
         (initialize (pageSource decimalInstruction) 18)).
Proof.
  intros (rows & Hrows & Hspan).
  vm_compute in Hrows. injection Hrows as <-.
  apply (f_equal (λ l, DebugProtocol.address <$> l !! 50%nat)) in Hspan.
  vm_compute in Hspan. discriminate Hspan.
Qed.

End disassembly_view.

(** * More properties *)

(** ** The icon registry *)

Section icon_registry_more.
Import IconRegistry.

(** What every sequence of calls keeps, besides [consistent]: an id that
    has a contribution has a property schema and an [enum] entry, and the
    registry has fired once per call. *)
Lemma listed_call r c :
  (∀ k, is_Some (iconsById r !! k) ↔ is_Some (iconSchemaProperties r !! k)) →
  (∀ k, is_Some (iconsById r !! k) → k ∈ enum r) →
  (∀ k, is_Some (iconsById (call r c) !! k)
        ↔ is_Some (iconSchemaProperties (call r c) !! k)) ∧
  (∀ k, is_Some (iconsById (call r c) !! k) → k ∈ enum (call r c)) ∧
  changes (call r c) = S (changes r).
Proof.
  intros Hdom Hin. destruct c as [i d desc dep|i]; simpl.
  - split_and!; [| |done].
    + intros k. rewrite !lookup_assignOwn.
      destruct (decide (i = "__proto__")); [apply Hdom|].
      destruct (decide (i = k)); [by rewrite !is_Some_alt | apply Hdom].
    + intros k. rewrite lookup_assignOwn, elem_of_app, list_elem_of_singleton.
      destruct (decide (i = "__proto__")); [auto|].
      destruct (decide (i = k)); auto.
  - split_and!; [| |done].
    + intros k. rewrite !lookup_delete_is_Some. by rewrite Hdom.
    + intros k. rewrite lookup_delete_is_Some. intros [Hne Hk].
      apply Hin in Hk.
      destruct (indexOf_spec i (enum r)) as [[-> _]|(l1 & l2 & Hl & _ & ->)].
      * by rewrite decide_False by lia.
      * rewrite decide_True by lia. rewrite Nat2Z.id, Hl, splice_remove.
        rewrite Hl in Hk. rewrite elem_of_app, elem_of_cons in Hk.
        rewrite elem_of_app. destruct Hk as [?|[?|?]]; [by left | done | by right].
Qed.

Lemma registry_listed cs :
  (∀ k, is_Some (iconsById (calls cs) !! k)
        ↔ is_Some (iconSchemaProperties (calls cs) !! k)) ∧
  (∀ k, is_Some (iconsById (calls cs) !! k) → k ∈ enum (calls cs)) ∧
  changes (calls cs) = length cs.
Proof.
  induction cs as [|c cs IH] using rev_ind.
  - split_and!; [| |done]; intros k; simpl; rewrite !lookup_empty;
      [by rewrite !is_Some_alt | by intros []].
  - destruct IH as (H1 & H2 & H3). unfold calls in *. rewrite foldl_app. simpl.
    destruct (listed_call _ c H1 H2) as (H1' & H2' & H3').
    split_and!; [done | done |]. rewrite H3', H3, length_app. simpl. lia.
Qed.

(** X1: in a registry built by any sequence of calls, the ids with a
    contribution are the ids with a property schema, each of them is listed
    in [enum], every contribution is stored under its own id, the two
    arrays of the reference schema have the same length, and the change
    event has fired exactly once per call. *)
Theorem registry_invariants (cs : list Call) :
  (∀ k, is_Some (iconsById (calls cs) !! k)
        ↔ is_Some (getIconSchema (calls cs) !! k)) ∧
  (∀ k, is_Some (iconsById (calls cs) !! k) → k ∈ enum (calls cs)) ∧
  (∀ k c, iconsById (calls cs) !! k = Some c → id c = k) ∧
  length (enumDescriptions (calls cs)) = length (enum (calls cs)) ∧
  changes (calls cs) = length cs.
Proof.
  destruct (consistent_calls cs) as [Hid Hlen].
  destruct (registry_listed cs) as (H1 & H2 & H3).
  done.
Qed.

Lemma unlisted_unregistered cs i :
  i ∉ enum (calls cs) →
  iconsById (calls cs) !! i = None ∧ iconSchemaProperties (calls cs) !! i = None.
Proof.
  intros Hnot. destruct (registry_listed cs) as (H1 & H2 & _).
  assert (iconsById (calls cs) !! i = None) as Hnone.
  { apply eq_None_not_Some. intros Hs. by apply Hnot, H2. }
  split; [done|]. apply eq_None_not_Some. rewrite <- H1, Hnone. by intros [].
Qed.

(** X2: registering an id that is not listed and deregistering it again
    restores the registry: contributions, property schemas and both arrays
    of the reference schema are as before; only the two change events have
    fired.  The prototypes of the two objects are as [registerIcon] left
    them: untouched, unless the id is [__proto__]. *)
Theorem register_deregister_restores (cs : list Call) (i : string)
    (d : IconDefaults) (desc dep : option string) :
  i ∉ enum (calls cs) →
  deregisterIcon i (registerIcon i d desc dep (calls cs)).1 =
  {| iconsById := iconsById (calls cs);
     iconsByIdPrototype :=
       iconsByIdPrototype (registerIcon i d desc dep (calls cs)).1;
     iconSchemaProperties := iconSchemaProperties (calls cs);
     iconSchemaPropertiesPrototype :=
       iconSchemaPropertiesPrototype (registerIcon i d desc dep (calls cs)).1;
     enum := enum (calls cs);
     enumDescriptions := enumDescriptions (calls cs);
     changes := S (S (changes (calls cs))) |} ∧
  (i ≠ "__proto__" →
   iconsByIdPrototype (registerIcon i d desc dep (calls cs)).1
     = iconsByIdPrototype (calls cs) ∧
   iconSchemaPropertiesPrototype (registerIcon i d desc dep (calls cs)).1
     = iconSchemaPropertiesPrototype (calls cs)).
Proof.
  intros Hnot. destruct (unlisted_unregistered cs i Hnot) as [Hm Hp].
  destruct (consistent_calls cs) as [_ Hlen].
  split.
  - unfold deregisterIcon, registerIcon. cbv zeta.
    cbn [fst iconsById iconsByIdPrototype iconSchemaProperties
         iconSchemaPropertiesPrototype enum enumDescriptions changes].
    rewrite indexOf_first by done. rewrite !decide_True by lia.
    rewrite Nat2Z.id, splice_remove, <- Hlen, splice_remove, !app_nil_r.
    unfold assignOwn. destruct (decide (i = "__proto__")).
    + by rewrite !delete_id.
    + by rewrite !delete_insert_id.
  - intros Hi. simpl. unfold assignPrototype. by rewrite !decide_False.
Qed.

Lemma register_deregister_restores_witness :
  ("add" ∉ enum (calls [])) ∧
  enum (deregisterIcon "add"
          (registerIcon "add" (OfThemeIcon {| themeIconId := "plus" |})
             None None (calls [])).1) = [].
Proof.
  split; [apply not_elem_of_nil|].
  exact (f_equal enum
    (proj1 (register_deregister_restores [] "add"
              (OfThemeIcon {| themeIconId := "plus" |})
              None None (not_elem_of_nil _)))).
Defined.

(** X3: deregistering an id that is not listed changes nothing in the
    registry, but the change event fires all the same. *)
Theorem deregister_unlisted (cs : list Call) (i : string) :
  i ∉ enum (calls cs) →
  deregisterIcon i (calls cs) =
  {| iconsById := iconsById (calls cs);
     iconsByIdPrototype := iconsByIdPrototype (calls cs);
     iconSchemaProperties := iconSchemaProperties (calls cs);
     iconSchemaPropertiesPrototype := iconSchemaPropertiesPrototype (calls cs);
     enum := enum (calls cs);
     enumDescriptions := enumDescriptions (calls cs);
     changes := S (changes (calls cs)) |}.
Proof.
  intros Hnot. destruct (unlisted_unregistered cs i Hnot) as [Hm Hp].
  unfold deregisterIcon. cbv zeta.
  destruct (indexOf_spec i (enum (calls cs))) as [[-> _]|(l1 & l2 & Hl & _ & _)].
  - rewrite !decide_False by lia. by rewrite !delete_id.
  - exfalso. apply Hnot. rewrite Hl, elem_of_app, elem_of_cons. auto.
Qed.

Lemma deregister_unlisted_witness :
  ("add" ∉ enum (calls [])) ∧ changes (deregisterIcon "add" (calls [])) = 1%nat.
Proof.
  split; [apply not_elem_of_nil|].
  exact (f_equal changes (deregister_unlisted [] "add" (not_elem_of_nil _))).
Defined.

(** X4: [getIcons] of a registry built by calls returns the contributions
    that are own properties of [iconsById], each once: as many as there are
    own keys, no two with the same id, and a contribution is returned
    exactly when it is the one stored under its id.  The contribution of a
    call of [registerIcon] is returned right after the call when its id is
    not [__proto__]; a contribution with the id [__proto__] is never
    returned, registered or not. *)
Theorem getIcons_distinct (cs : list Call) :
  NoDup (id <$> getIcons (calls cs)) ∧
  length (getIcons (calls cs)) = size (iconsById (calls cs)) ∧
  (∀ c, c ∈ getIcons (calls cs) ↔ iconsById (calls cs) !! id c = Some c) ∧
  (∀ c, c ∈ getIcons (calls cs) → id c ≠ "__proto__") ∧
  (∀ i d desc dep, i ≠ "__proto__" →
     {| id := i; description := storedDescription i desc;
        deprecationMessage := dep; defaults := d |}
     ∈ getIcons (calls (cs ++ [RegisterIcon i d desc dep]))).
Proof.
  assert (∀ cs c, c ∈ getIcons (calls cs) ↔ iconsById (calls cs) !! id c = Some c)
    as Hmem.
  { clear cs. intros cs c. destruct (consistent_calls cs) as [Hid _].
    rewrite getIcons_values, list_elem_of_fmap. split.
    - intros ([k c'] & Heq & Hin). simpl in Heq. subst c'.
      apply elem_of_map_to_list in Hin. by rewrite (Hid _ _ Hin).
    - intros Hc. exists (id c, c). split; [done|]. by apply elem_of_map_to_list. }
  assert (∀ c, c ∈ getIcons (calls cs) → id c ≠ "__proto__") as Hproto.
  { intros c Hc Hp. apply Hmem in Hc. rewrite Hp in Hc.
    destruct (no_own_proto cs) as [Hnone _]. congruence. }
  assert (∀ i d desc dep, i ≠ "__proto__" →
     {| id := i; description := storedDescription i desc;
        deprecationMessage := dep; defaults := d |}
     ∈ getIcons (calls (cs ++ [RegisterIcon i d desc dep]))) as Hreg.
  { intros i d desc dep Hi. apply Hmem. unfold calls. rewrite foldl_app.
    simpl. rewrite assignOwn_insert, lookup_insert_eq by done.
    by rewrite <- describedAs_stored. }
  destruct (consistent_calls cs) as [Hid _].
  assert (id <$> (map_to_list (iconsById (calls cs))).*2
          = (map_to_list (iconsById (calls cs))).*1) as Hids.
  { rewrite <- list_fmap_compose. apply list_fmap_ext.
    intros j [k c] Hin. simpl.
    apply list_elem_of_lookup_2, elem_of_map_to_list in Hin. by apply Hid. }
  split_and!.
  - rewrite getIcons_values, Hids. apply NoDup_fst_map_to_list.
  - by rewrite getIcons_values, length_fmap, length_map_to_list.
  - apply Hmem.
  - exact Hproto.
  - exact Hreg.
Qed.

(** X5: [deregisterIcon] of a listed id removes the first [enum] entry of
    the id and the description at the same index; the entries before and
    after it stay in their order, and the contribution and the property
    schema of the id are deleted. *)
Theorem deregister_removes_first (cs : list Call) (i : string) :
  i ∈ enum (calls cs) →
  ∃ l1 l2 ds1 d ds2,
    enum (calls cs) = l1 ++ i :: l2 ∧ (i ∉ l1) ∧
    enumDescriptions (calls cs) = ds1 ++ d :: ds2 ∧ length ds1 = length l1 ∧
    getIconReferenceSchema (deregisterIcon i (calls cs)) = (l1 ++ l2, ds1 ++ ds2) ∧
    iconsById (deregisterIcon i (calls cs)) !! i = None ∧
    getIconSchema (deregisterIcon i (calls cs)) !! i = None.
Proof.
  intros Hin. destruct (consistent_calls cs) as [_ Hlen].
  destruct (indexOf_spec i (enum (calls cs))) as [[_ Hnot]|(l1 & l2 & Hl & Hnot & _)];
    [done|].
  assert (length l1 < length (enumDescriptions (calls cs)))%nat as Hlt.
  { rewrite Hlen, Hl, length_app. simpl. lia. }
  destruct (lookup_lt_is_Some_2 _ _ Hlt) as [d Hd].
  exists l1, l2, (take (length l1) (enumDescriptions (calls cs))), d,
    (drop (S (length l1)) (enumDescriptions (calls cs))).
  assert (enumDescriptions (calls cs) =
    take (length l1) (enumDescriptions (calls cs)) ++
    d :: drop (S (length l1)) (enumDescriptions (calls cs))) as Hds.
  { by rewrite <- (take_drop_middle _ _ _ Hd) at 1. }
  assert (length (take (length l1) (enumDescriptions (calls cs))) = length l1) as Hl1.
  { rewrite length_take. lia. }
  split_and!; try done.
  - by apply (deregisterIcon_first _ i l1 l2 _ d).
  - simpl. apply lookup_delete_eq.
  - simpl. apply lookup_delete_eq.
Qed.

Lemma deregister_removes_first_witness :
  ("add" ∈ enum (calls [RegisterIcon "add" (OfThemeIcon {| themeIconId := "plus" |})
                          None None])) ∧
  ∃ l1 l2 ds1 d ds2,
    enum (calls [RegisterIcon "add" (OfThemeIcon {| themeIconId := "plus" |})
                   None None]) = l1 ++ "add" :: l2 ∧ ("add" ∉ l1) ∧
    enumDescriptions (calls [RegisterIcon "add" (OfThemeIcon {| themeIconId := "plus" |})
                   None None]) = ds1 ++ d :: ds2 ∧ length ds1 = length l1.
Proof.
  assert ("add" ∈ enum (calls [RegisterIcon "add"
            (OfThemeIcon {| themeIconId := "plus" |}) None None])) as Hin.
  { simpl. apply list_elem_of_singleton. reflexivity. }
  split; [exact Hin|].
  destruct (deregister_removes_first _ "add" Hin)
    as (l1 & l2 & ds1 & d & ds2 & H1 & H2 & H3 & H4 & _).
  exists l1, l2, ds1, d, ds2. split_and!; [exact H1 | exact H2 | exact H3 | exact H4].
Defined.

Lemma lookup_remove_middle {A} (l1 l2 : list A) (x : A) (n : nat) :
  (l1 ++ l2) !! n =
  if decide (n < length l1)%nat then (l1 ++ x :: l2) !! n
  else (l1 ++ x :: l2) !! S n.
Proof.
  case_decide as Hn.
  - by rewrite !lookup_app_l by done.
  - rewrite !lookup_app_r by lia.
    by replace (S n - length l1)%nat with (S (n - length l1)) by lia.
Qed.

Lemma lookup_remove_middle_eq {A} (l l1 l2 : list A) (x : A) (m n : nat) :
  l = l1 ++ x :: l2 → m = length l1 →
  splice m 1 [] l !! n =
  if decide (n < m)%nat then l !! n else l !! S n.
Proof.
  intros -> ->. rewrite splice_remove. apply lookup_remove_middle.
Qed.

(** X6: the two arrays of the reference schema stay aligned.  In a registry
    built by calls, every [enum] entry stems from a call of [registerIcon]
    with that id, and the entry of [enumDescriptions] at the same index is
    the description that this call stored. *)
Theorem enum_descriptions_aligned (cs : list Call) (n : nat) (k : string) :
  enum (calls cs) !! n = Some k →
  ∃ d desc dep,
    RegisterIcon k d desc dep ∈ cs ∧
    enumDescriptions (calls cs) !! n = Some (describedAs k desc).
Proof.
  revert n k. induction cs as [|c cs IH] using rev_ind; intros n k; [done|].
  destruct (consistent_calls cs) as [_ Hlen].
  unfold calls in *. rewrite foldl_app. simpl.
  set (r := foldl call empty cs) in *.
  destruct c as [i d desc dep|i]; simpl.
  - destruct (decide (n < length (enum r))%nat) as [Hn|Hn].
    + rewrite !lookup_app_l by lia. intros Hk.
      destruct (IH n k Hk) as (d' & desc' & dep' & Hin & Hd).
      exists d', desc', dep'. split; [|done].
      apply elem_of_app. by left.
    + rewrite !lookup_app_r by lia. rewrite Hlen.
      destruct (n - length (enum r))%nat; [|done]. simpl.
      intros [= <-]. exists d, desc, dep. split; [|done].
      apply elem_of_app. right. by apply list_elem_of_singleton.
  - destruct (indexOf_spec i (enum r)) as [[-> _]|(l1 & l2 & Hl & _ & ->)].
    + rewrite !decide_False by lia. intros Hk.
      destruct (IH n k Hk) as (d' & desc' & dep' & Hin & Hd).
      exists d', desc', dep'. split; [|done].
      apply elem_of_app. by left.
    + rewrite !decide_True by lia. rewrite Nat2Z.id.
      assert (length l1 < length (enumDescriptions r))%nat as Hlt.
      { rewrite Hlen, Hl, length_app. simpl. lia. }
      destruct (lookup_lt_is_Some_2 _ _ Hlt) as [x Hx].
      set (ds1 := take (length l1) (enumDescriptions r)).
      set (ds2 := drop (S (length l1)) (enumDescriptions r)).
      assert (enumDescriptions r = ds1 ++ x :: ds2) as Hds.
      { symmetry. by apply take_drop_middle. }
      assert (length l1 = length ds1) as Hl1.
      { unfold ds1. rewrite length_take. lia. }
      rewrite (lookup_remove_middle_eq (enum r) l1 l2 i _ n) by done.
      rewrite (lookup_remove_middle_eq (enumDescriptions r) ds1 ds2 x _ n) by done.
      intros Hk.
      assert (∃ m, enum r !! m = Some k ∧
        (if decide (n < length l1)%nat then enumDescriptions r !! n
         else enumDescriptions r !! S n) = enumDescriptions r !! m) as (m & Hm & ->).
      { case_decide; eauto. }
      destruct (IH m k Hm) as (d' & desc' & dep' & Hin & Hd).
      exists d', desc', dep'. split; [|done].
      apply elem_of_app. by left.
Qed.

Lemma enum_descriptions_aligned_witness :
  enum (calls [RegisterIcon "add" (OfThemeIcon {| themeIconId := "plus" |}) None None;
               RegisterIcon "x" (OfThemeIcon {| themeIconId := "close" |})
                 (Some "Close") None;
               DeregisterIcon "add"]) !! 0%nat = Some "x" ∧
  ∃ d desc dep,
    RegisterIcon "x" d desc dep ∈
      [RegisterIcon "add" (OfThemeIcon {| themeIconId := "plus" |}) None None;
       RegisterIcon "x" (OfThemeIcon {| themeIconId := "close" |}) (Some "Close") None;
       DeregisterIcon "add"] ∧
    enumDescriptions
      (calls [RegisterIcon "add" (OfThemeIcon {| themeIconId := "plus" |}) None None;
              RegisterIcon "x" (OfThemeIcon {| themeIconId := "close" |})
                (Some "Close") None;
              DeregisterIcon "add"]) !! 0%nat = Some (describedAs "x" desc).
Proof.
  split; [reflexivity|].
  apply enum_descriptions_aligned. reflexivity.
Defined.

Lemma describedAs_nonempty i desc : describedAs i desc ≠ "".
Proof.
  unfold describedAs, truthy. destruct desc as [s|]; [|done].
  destruct (String.eqb s "") eqn:Hs; simpl; [done|].
  by apply String.eqb_neq.
Qed.

(** X19: no description is ever empty.  [registerIcon] replaces a missing
    or empty description by the default text, so in a registry built by
    calls every contribution has a description that is not empty, and so
    has every entry of [enumDescriptions]. *)
Theorem descriptions_nonempty (cs : list Call) :
  (∀ k c, iconsById (calls cs) !! k = Some c → description c ≠ "") ∧
  Forall (λ d, d ≠ "") (enumDescriptions (calls cs)).
Proof.
  induction cs as [|c cs IH] using rev_ind.
  - split; [|constructor]. intros k c. simpl. by rewrite lookup_empty.
  - destruct IH as [Hm Hd]. unfold calls in *. rewrite foldl_app. simpl.
    set (r := foldl call empty cs) in *.
    destruct c as [i d desc dep|i]; simpl.
    + split.
      * intros k c. rewrite lookup_assignOwn.
        destruct (decide (i = "__proto__")); [apply Hm|].
        case_decide; [|apply Hm].
        intros [= <-]. simpl. apply describedAs_nonempty.
      * apply Forall_app. split; [done|].
        constructor; [apply describedAs_nonempty | constructor].
    + split.
      * intros k c. rewrite lookup_delete. case_decide; [done | apply Hm].
      * case_decide; [|done]. unfold splice. simpl.
        apply Forall_app. split; [by apply Forall_take | by apply Forall_drop].
Qed.
End icon_registry_more.

(** ** The notification of schema changes *)

Section schema_notifier.
Import IconRegistry SchemaNotifier.

Lemma changes_foldl r cs : changes (foldl call r cs) = (changes r + length cs)%nat.
Proof.
  revert r. induction cs as [|c cs IH]; intros r; simpl; [lia|].
  rewrite IH. destruct c; simpl; lia.
Qed.

Lemma fired_scheduled {Scheduler} (isScheduled : Scheduler → bool)
    (schedule : Scheduler → Scheduler) n s k :
  isScheduled s = true → fired Scheduler isScheduled schedule n (s, k) = (s, k).
Proof.
  intros Hs. induction n as [|n IH]; [done|].
  unfold fired in *. simpl. rewrite IH. unfold listener. simpl. by rewrite Hs.
Qed.

(** X7: while the delayer is scheduled the listener does nothing, and a
    burst of calls of [registerIcon] and [deregisterIcon], each of which
    fires the change event, schedules a delayer that was not scheduled
    exactly once. *)
Theorem schema_changes_schedule_once {Scheduler} (isScheduled : Scheduler → bool)
    (schedule : Scheduler → Scheduler) (s : Scheduler)
    (r : IconRegistry) (cs : list Call) :
  (∀ s, isScheduled (schedule s) = true) →
  isScheduled s = false →
  cs ≠ [] →
  fired Scheduler isScheduled schedule
    (changes (foldl call r cs) - changes r) (s, 0%nat) = (schedule s, 1%nat).
Proof.
  intros Hsched Hs Hcs. rewrite changes_foldl.
  replace (changes r + length cs - changes r)%nat with (length cs) by lia.
  destruct cs as [|c cs]; [done|]. simpl length.
  unfold fired. rewrite Nat.iter_succ_r.
  unfold listener at 2. simpl. rewrite Hs. simpl.
  by apply fired_scheduled.
Qed.

Lemma schema_changes_schedule_once_witness :
  (∀ s, flagIsScheduled (flagSchedule s) = true) ∧
  flagIsScheduled false = false ∧
  [DeregisterIcon "add"; DeregisterIcon "plus"] ≠ [] ∧
  fired bool flagIsScheduled flagSchedule
    (changes (foldl call empty [DeregisterIcon "add"; DeregisterIcon "plus"])
     - changes empty) (false, 0%nat) = (flagSchedule false, 1%nat).
Proof.
  assert (∀ s, flagIsScheduled (flagSchedule s) = true) as H1 by reflexivity.
  assert ([DeregisterIcon "add"; DeregisterIcon "plus"] ≠ []) as H3 by discriminate.
  split; [exact H1|]. split; [reflexivity|]. split; [exact H3|].
  exact (schema_changes_schedule_once flagIsScheduled flagSchedule false empty
           [DeregisterIcon "add"; DeregisterIcon "plus"] H1 eq_refl H3).
Defined.

End schema_notifier.

(** ** Codicons, the instruction renderer and the editor input *)

Section codicons_more.

(** X8: two codicons with the same class name, or with the same CSS
    selector, are the same codicon: both accessors determine the id. *)
Theorem codicon_names_injective (c1 c2 : Codicon.Codicon) :
  (Codicon.className c1 = Codicon.className c2 ↔ c1 = c2) ∧
  (Codicon.cssSelector c1 = Codicon.cssSelector c2 ↔ c1 = c2).
Proof.
  destruct c1 as [s1], c2 as [s2].
  unfold Codicon.className, Codicon.cssSelector. cbn [Codicon.id].
  split; (split; [intros Heq; apply (inj (String.app _)) in Heq; by subst
                 | by intros [= ->]]).
Qed.

End codicons_more.

Section instruction_renderer.
Import InstructionRenderer.

Lemma tab_separated_inj s1 s2 r1 r2 :
  tabFree s1 → tabFree s2 →
  s1 +:+ String tabChar r1 = s2 +:+ String tabChar r2 → s1 = s2 ∧ r1 = r2.
Proof.
  revert s2. induction s1 as [|c s1 IH]; intros [|c' s2] H1 H2 Heq;
    cbn [String.app] in Heq.
  - by injection Heq as ->.
  - injection Heq as Hc Heq. destruct H2 as [H2 _]. by destruct H2.
  - injection Heq as Hc Heq. destruct H1 as [H1 _]. by destruct H1.
  - injection Heq as Hc Heq. destruct H1 as [_ H1], H2 as [_ H2].
    destruct (IH s2 H1 H2 Heq) as [-> ->]. by subst.
Qed.

(** X9: the text that the instruction renderer shows determines the
    address and the instruction text of a row, and its bytes up to one
    confusion, as long as the address and the bytes as they are printed
    hold no tab: two rows with the same text have the same address, the
    same instruction text and the same bytes, unless one has no bytes and
    the other has the bytes [undefined]; such two rows do show the same
    text. *)
Theorem renderElement_injective (e1 e2 : DisassemblyView.IDisassembledInstructionEntry) :
  tabFree (DebugProtocol.address (DisassemblyView.instruction e1)) →
  tabFree (interpolate
             (DebugProtocol.instructionBytes (DisassemblyView.instruction e1))) →
  tabFree (DebugProtocol.address (DisassemblyView.instruction e2)) →
  tabFree (interpolate
             (DebugProtocol.instructionBytes (DisassemblyView.instruction e2))) →
  renderElement e1 = renderElement e2 →
  DebugProtocol.address (DisassemblyView.instruction e1)
    = DebugProtocol.address (DisassemblyView.instruction e2) ∧
  DebugProtocol.instruction (DisassemblyView.instruction e1)
    = DebugProtocol.instruction (DisassemblyView.instruction e2) ∧
  (DebugProtocol.instructionBytes (DisassemblyView.instruction e1)
     = DebugProtocol.instructionBytes (DisassemblyView.instruction e2) ∨
   (DebugProtocol.instructionBytes (DisassemblyView.instruction e1) = None ∧
    DebugProtocol.instructionBytes (DisassemblyView.instruction e2)
      = Some "undefined") ∨
   (DebugProtocol.instructionBytes (DisassemblyView.instruction e1)
      = Some "undefined" ∧
    DebugProtocol.instructionBytes (DisassemblyView.instruction e2) = None)) ∧
  (∀ a b address text,
     renderElement
       {| DisassemblyView.allowBreakpoint := a; DisassemblyView.isBreakpointSet := b;
          DisassemblyView.instruction :=
            {| DebugProtocol.address := address;
               DebugProtocol.instructionBytes := None;
               DebugProtocol.instruction := text |} |} =
     renderElement
       {| DisassemblyView.allowBreakpoint := a; DisassemblyView.isBreakpointSet := b;
          DisassemblyView.instruction :=
            {| DebugProtocol.address := address;
               DebugProtocol.instructionBytes := Some "undefined";
               DebugProtocol.instruction := text |} |}).
Proof.
  destruct e1 as [a1 b1 [ad1 by1 in1]], e2 as [a2 b2 [ad2 by2 in2]].
  unfold renderElement.
  cbn [DisassemblyView.instruction DebugProtocol.address
       DebugProtocol.instructionBytes DebugProtocol.instruction].
  intros Ha1 Hb1 Ha2 Hb2 Heq.
  change (ad1 +:+ String tabChar (interpolate by1 +:+ String tabChar in1) =
          ad2 +:+ String tabChar (interpolate by2 +:+ String tabChar in2)) in Heq.
  apply tab_separated_inj in Heq as [-> Heq]; [|done|done].
  apply tab_separated_inj in Heq as [Hby ->]; [|done|done].
  split; [done|]. split; [done|]. split; [|done].
  unfold interpolate in Hby.
  destruct by1 as [s1|], by2 as [s2|]; simpl in Hby; subst; auto.
Qed.

Lemma renderElement_injective_witness :
  tabFree "0x10" ∧ tabFree (interpolate None) ∧
  tabFree (interpolate (Some "undefined")) ∧
  DebugProtocol.instruction
    (DisassemblyView.instruction
       {| DisassemblyView.allowBreakpoint := true;
          DisassemblyView.isBreakpointSet := false;
          DisassemblyView.instruction :=
            {| DebugProtocol.address := "0x10"; DebugProtocol.instructionBytes := None;
               DebugProtocol.instruction := "nop" |} |}) =
  DebugProtocol.instruction
    (DisassemblyView.instruction
       {| DisassemblyView.allowBreakpoint := true;
          DisassemblyView.isBreakpointSet := false;
          DisassemblyView.instruction :=
            {| DebugProtocol.address := "0x10";
               DebugProtocol.instructionBytes := Some "undefined";
               DebugProtocol.instruction := "nop" |} |}).
Proof.
  assert (tabFree "0x10") as Ha by (simpl; repeat split; discriminate).
  assert (tabFree (interpolate None)) as Hb by (simpl; repeat split; discriminate).
  assert (tabFree (interpolate (Some "undefined"))) as Hc
    by (simpl; repeat split; discriminate).
  split; [exact Ha|]. split; [exact Hb|]. split; [exact Hc|].
  exact (proj1 (proj2 (renderElement_injective
    {| DisassemblyView.allowBreakpoint := true;
       DisassemblyView.isBreakpointSet := false;
       DisassemblyView.instruction :=
         {| DebugProtocol.address := "0x10"; DebugProtocol.instructionBytes := None;
            DebugProtocol.instruction := "nop" |} |}
    {| DisassemblyView.allowBreakpoint := true;
       DisassemblyView.isBreakpointSet := false;
       DisassemblyView.instruction :=
         {| DebugProtocol.address := "0x10";
            DebugProtocol.instructionBytes := Some "undefined";
            DebugProtocol.instruction := "nop" |} |}
    Ha Hb Ha Hc eq_refl))).
Defined.

End instruction_renderer.

Section editor_input.
Import DisassemblyViewInput.

Lemma instance_live h :
  isDisposed (instance h).2 (instance h).1 = false ∧
  _instance (instance h).1 = Some (instance h).2.
Proof.
  unfold instance. destruct (_instance h) as [i|] eqn:Hi.
  - destruct (isDisposed i h) eqn:Hd; simpl; [|done].
    unfold isDisposed. simpl. by rewrite list_lookup_middle.
  - unfold isDisposed. simpl. by rewrite list_lookup_middle.
Qed.

(** X10: the static getter [instance] never returns a disposed input; the
    input it returns is the one it stores, and a second access returns the
    same input without creating another. *)
Theorem instance_singleton (h : Inputs) :
  isDisposed (instance h).2 (instance h).1 = false ∧
  _instance (instance h).1 = Some (instance h).2 ∧
  instance (instance h).1 = instance h.
Proof.
  destruct (instance_live h) as [Hlive Hinst].
  split; [done|]. split; [done|].
  destruct (instance h) as [h' i]. simpl in *.
  unfold instance. by rewrite Hinst, Hlive.
Qed.

(** X11: once the input that [instance] returned is disposed, the next
    access creates a new input, which is not the disposed one; disposing
    any other input leaves the singleton in place. *)
Theorem instance_after_dispose (h : Inputs) (j : nat) :
  (instance (dispose (instance h).2 (instance h).1)).2 ≠ (instance h).2 ∧
  isDisposed (instance (dispose (instance h).2 (instance h).1)).2
    (instance (dispose (instance h).2 (instance h).1)).1 = false ∧
  (j ≠ (instance h).2 →
   (instance (dispose j (instance h).1)).2 = (instance h).2).
Proof.
  destruct (instance_live h) as [Hlive Hinst].
  destruct (instance h) as [h' i]. simpl in *.
  assert (disposed h' !! i = Some false) as Hi.
  { unfold isDisposed in Hlive. destruct (disposed h' !! i) as [[]|]; done. }
  assert (i < length (disposed h'))%nat as Hlt by (by eapply lookup_lt_Some).
  split_and!.
  - unfold instance, dispose, isDisposed. simpl. rewrite Hinst.
    rewrite list_lookup_insert_eq by done. simpl. rewrite length_insert. lia.
  - apply instance_live.
  - intros Hj. unfold instance, dispose, isDisposed. simpl. rewrite Hinst.
    rewrite list_lookup_insert_ne by done. by rewrite Hi.
Qed.

End editor_input.

(** ** The disassembly view under any interleaving *)

Section disassembly_view_more.
Import DisassemblyView Interleaving.

Lemma lastOffset_settle k s this : _lastOffset (settle k s this) = _lastOffset this.
Proof.
  unfold settle. destruct (outstanding this !! k); [|done]. by destruct s.
Qed.

Lemma lastOffset_onDidScroll e this :
  _lastOffset (onDidScroll e this) =
  if qualifiesBackward (DidScroll e)
  then _lastOffset this - NUM_INSTRUCTIONS_TO_LOAD else _lastOffset this.
Proof.
  unfold onDidScroll, qualifiesBackward.
  destruct (_ && _); [done|].
  destruct (_ && _); [|done].
  by destruct (_disassembledInstructions this).
Qed.

Lemma backwardFetches_snoc evs ev :
  backwardFetches (evs ++ [ev]) =
  (backwardFetches evs + if qualifiesBackward ev then 1 else 0)%nat.
Proof.
  unfold backwardFetches. rewrite filter_app, length_app. f_equal.
  destruct (qualifiesBackward ev) eqn:Hq.
  - by rewrite filter_cons_True.
  - by rewrite filter_cons_False by (by rewrite Hq).
Qed.

(** X12: whatever the order of scroll events and settlements, and however
    the fetches end, [_lastOffset] is minus the page size times one more
    than the number of scroll events that took the backward branch: only
    scroll events move it, and nothing moves it back. *)
Theorem lastOffset_counts_backward_fetches (lh : Z) (evs : list Event) :
  _lastOffset (editorAfter lh evs) =
  - NUM_INSTRUCTIONS_TO_LOAD * (1 + Z.of_nat (backwardFetches evs)).
Proof.
  induction evs as [|ev evs IH] using rev_ind; [done|].
  unfold editorAfter in *. rewrite run_snoc, backwardFetches_snoc.
  destruct ev as [e|k s]; simpl step.
  - rewrite lastOffset_onDidScroll, IH.
    destruct (qualifiesBackward (DidScroll e));
      unfold NUM_INSTRUCTIONS_TO_LOAD; lia.
  - rewrite lastOffset_settle, IH. simpl.
    unfold NUM_INSTRUCTIONS_TO_LOAD; lia.
Qed.

Lemma merge_sublist o res rows :
  ∃ rows', merge o res (Some rows) = Some rows' ∧ rows `sublist_of` rows'.
Proof.
  unfold merge. destruct res as [page|]; [|by exists rows].
  unfold tableSplice, splice.
  destruct (bool_decide (0 ≤ o)); eexists; (split; [done|]).
  - rewrite <- (take_drop (Z.to_nat o) rows) at 1. rewrite Nat.add_0_r.
    apply sublist_app; [done|]. by apply sublist_inserts_l.
  - simpl. rewrite drop_0. by apply sublist_inserts_l.
Qed.

Lemma step_sublist this ev rows :
  _disassembledInstructions this = Some rows →
  ∃ rows', _disassembledInstructions (step this ev) = Some rows' ∧
           rows `sublist_of` rows'.
Proof.
  intros Hrows. destruct ev as [e|k s]; simpl.
  - exists rows. split; [|done]. unfold onDidScroll.
    destruct (_ && _); [done|]. destruct (_ && _); [|done]. by rewrite Hrows.
  - unfold settle. destruct (outstanding this !! k) as [r|]; [|by exists rows].
    destruct s as [|res]; [by exists rows|]. simpl. rewrite Hrows.
    apply merge_sublist.
Qed.

Lemma run_sublist evs this rows :
  _disassembledInstructions this = Some rows →
  ∃ rows', _disassembledInstructions (run evs this) = Some rows' ∧
           rows `sublist_of` rows'.
Proof.
  revert this rows. induction evs as [|ev evs IH]; intros this rows Hrows.
  - by exists rows.
  - destruct (step_sublist this ev rows Hrows) as (rows1 & H1 & Hs1).
    destruct (IH _ _ H1) as (rows2 & H2 & Hs2).
    exists rows2. split; [done|]. by etrans.
Qed.

(** X13: the window only grows.  Whatever events follow, the rows that were
    loaded stay in the window, in their order: the rows before are a
    sublist of the rows after, and no fetch, failed or not, removes or
    reorders a row. *)
Theorem window_only_grows (lh : Z) (evs evs' : list Event) :
  ∃ rows rows',
    _disassembledInstructions (editorAfter lh evs) = Some rows ∧
    _disassembledInstructions (editorAfter lh (evs ++ evs')) = Some rows' ∧
    rows `sublist_of` rows' ∧
    (length rows ≤ length rows')%nat.
Proof.
  destruct (created_editorAfter lh evs) as (_ & [rows Hrows] & _).
  destruct (run_sublist evs' _ rows Hrows) as (rows' & Hrows' & Hsub).
  exists rows, rows'. split; [done|]. split.
  - unfold editorAfter, run in *. by rewrite foldl_app.
  - split; [done|]. by apply sublist_length.
Qed.












End disassembly_view_more.
